(** * sourcery: extraction and scope filtering (index.js)

    A shallow embedding of the response handler of [index.js] and of the
    two regular expressions it scans with, together with the properties
    of the extraction engine.

    JavaScript strings are sequences of UTF-16 code units; they are
    modelled as lists of numbers.  The regular expressions are kept as
    syntax trees and run by a backtracking matcher that follows the
    continuation semantics of ECMAScript (no [i], [m], [s] or [u] flag is
    set on either expression). *)

From Stdlib Require Import NArith Ascii String.
From stdpp Require Import base option list gmap sets.

(** ** Strings *)

Definition jsstring := list N.

(** A literal of the development's ASCII text as a JavaScript string. *)
Definition js (s : string) : jsstring :=
  map N_of_ascii (list_ascii_of_string s).

Definition cu (a : ascii) : N := N_of_ascii a.

(** The two quote characters, U+0022 and U+0027. *)
Definition dquote : N := 34%N.
Definition squote : N := 39%N.

(** [String.prototype.startsWith]. *)
Fixpoint startsWith (s p : jsstring) {struct p} : bool :=
  match p, s with
  | [], _ => true
  | _ :: _, [] => false
  | a :: p', b :: s' => N.eqb a b && startsWith s' p'
  end.

(** [String.prototype.endsWith]: the last [length p] code units are [p]. *)
Definition endsWith (s p : jsstring) : bool :=
  (length p <=? length s) && startsWith (drop (length s - length p) s) p.

(** [===] on strings. *)
Definition streq (s t : jsstring) : bool := bool_decide (s = t).

(** ** Regular expressions *)

Module RegExp.

(** Members of a character class. *)
Inductive class_item :=
| One (c : N)            (* a single character *)
| Range (lo hi : N)      (* lo-hi *)
| Word                   (* \w *)
| Digit                  (* \d *)
| Space.                 (* \s *)

Inductive regex :=
| Eps
| Chr (c : N)
| Class (negated : bool) (items : list class_item)   (* [...] and [^...] *)
| Seq (r1 r2 : regex)
| Alt (r1 r2 : regex)                                (* r1|r2 *)
| Opt (r : regex)                                    (* r?  *)
| LazyStar (r : regex)                               (* r*? *)
| LazyPlus (r : regex)                               (* r+? *)
| Group (n : nat) (r : regex)                        (* n-th (...) *)
| Backref (n : nat)                                  (* \n *)
| Lookahead (r : regex).                             (* (?=r) *)

Definition in_range (lo hi c : N) : bool := (lo <=? c)%N && (c <=? hi)%N.

Definition is_digit (c : N) : bool := in_range 48 57 c.

(** [\w] is [A-Za-z0-9_]. *)
Definition is_word (c : N) : bool :=
  in_range 97 122 c || in_range 65 90 c || is_digit c || (c =? 95)%N.

(** [\s]: WhiteSpace and LineTerminator code points. *)
Definition is_space (c : N) : bool :=
  in_range 9 13 c || (c =? 32)%N || (c =? 160)%N || (c =? 5760)%N
  || in_range 8192 8202 c || (c =? 8232)%N || (c =? 8233)%N
  || (c =? 8239)%N || (c =? 8287)%N || (c =? 12288)%N || (c =? 65279)%N.

Definition item_mem (c : N) (i : class_item) : bool :=
  match i with
  | One d => (d =? c)%N
  | Range lo hi => in_range lo hi c
  | Word => is_word c
  | Digit => is_digit c
  | Space => is_space c
  end.

Definition class_mem (items : list class_item) (c : N) : bool :=
  existsb (item_mem c) items.

(** The capturing groups of a pattern, by number. *)
Fixpoint groups (r : regex) : list nat :=
  match r with
  | Eps | Chr _ | Class _ _ | Backref _ => []
  | Seq r1 r2 | Alt r1 r2 => groups r1 ++ groups r2
  | Opt r1 | LazyStar r1 | LazyPlus r1 | Lookahead r1 => groups r1
  | Group n r1 => n :: groups r1
  end.

(** A match state: the input that is still ahead of the end index, and
    the captures, slot 0 being the whole match as in the array that
    [exec] returns. *)
Record mstate := MState { rest : jsstring; caps : list (option jsstring) }.

Definition cont := mstate -> option mstate.

(** What was consumed between state [x] and the later state [y]. *)
Definition consumed (x y : mstate) : jsstring :=
  take (length (rest x) - length (rest y)) (rest x).

Definition advance (x : mstate) (t : jsstring) : mstate :=
  MState t (caps x).

Definition reset (gs : list nat) (c : list (option jsstring))
  : list (option jsstring) :=
  foldr (fun n c => <[n := None]> c) c gs.

(** RepeatMatcher for a lazy quantifier without upper bound, once its
    minimum is met: first the continuation, then one more iteration, which
    has to consume something.  Every iteration consumes a code unit, so the
    length of the input ahead bounds their number. *)
Fixpoint lazy_loop (atom : mstate -> cont -> option mstate) (gs : list nat)
    (fuel : nat) (x : mstate) (k : cont) : option mstate :=
  match k x with
  | Some z => Some z
  | None =>
      match fuel with
      | 0 => None
      | S fuel' =>
          atom (MState (rest x) (reset gs (caps x)))
            (fun y => if length (rest y) =? length (rest x) then None
                      else lazy_loop atom gs fuel' y k)
      end
  end.

Fixpoint matcher (r : regex) (x : mstate) (k : cont) : option mstate :=
  match r with
  | Eps => k x
  | Chr c =>
      match rest x with
      | d :: t => if (c =? d)%N then k (advance x t) else None
      | [] => None
      end
  | Class negated items =>
      match rest x with
      | d :: t => if xorb negated (class_mem items d)
                  then k (advance x t) else None
      | [] => None
      end
  | Seq r1 r2 => matcher r1 x (fun y => matcher r2 y k)
  | Alt r1 r2 =>
      match matcher r1 x k with
      | Some z => Some z
      | None => matcher r2 x k
      end
  | Opt r1 =>
      match matcher r1 (MState (rest x) (reset (groups r1) (caps x)))
              (fun y => if length (rest y) =? length (rest x) then None
                        else k y) with
      | Some z => Some z
      | None => k x
      end
  | LazyStar r1 =>
      lazy_loop (matcher r1) (groups r1) (length (rest x)) x k
  | LazyPlus r1 =>
      matcher r1 (MState (rest x) (reset (groups r1) (caps x)))
        (fun y => lazy_loop (matcher r1) (groups r1) (length (rest y)) y k)
  | Group n r1 =>
      matcher r1 x
        (fun y => k (MState (rest y) (<[n := Some (consumed x y)]> (caps y))))
  | Backref n =>
      match caps x !! n with
      | Some (Some s) =>
          if startsWith (rest x) s
          then k (advance x (drop (length s) (rest x))) else None
      | _ => k x
      end
  | Lookahead r1 =>
      match matcher r1 x Some with
      | Some y => k (MState (rest x) (caps y))
      | None => None
      end
  end.

(** The result of a successful [exec]: where the match starts and ends,
    and the array [whole; group 1; group 2; ...]. *)
Record result := Result {
  index : nat;
  endIndex : nat;
  array : list (option jsstring)
}.

(** One attempt of the pattern at position [i] of [s]. *)
Definition match_at (r : regex) (s : jsstring) (i : nat) : option result :=
  let x := MState (drop i s) (replicate (S (list_max (groups r))) None) in
  match matcher r x Some with
  | Some y =>
      Some (Result i (length s - length (rest y))
              (<[0 := Some (consumed x y)]> (caps y)))
  | None => None
  end.

(** The scan of RegExpBuiltinExec for a global expression: positions
    [i], [i+1], ... up to the end of [s], [n] being how many remain after
    [i]. *)
Fixpoint search (r : regex) (s : jsstring) (n i : nat) : option result :=
  match match_at r s i with
  | Some m => Some m
  | None =>
      match n with
      | 0 => None
      | S n' => search r s n' (S i)
      end
  end.

(** [regex.exec(string)] on a global expression whose [lastIndex] is
    [last]: the match, if any, and the new [lastIndex]. *)
Definition exec (r : regex) (s : jsstring) (last : nat)
  : option result * nat :=
  if length s <? last then (None, 0)
  else match search r s (length s - last) last with
       | Some m => (Some m, endIndex m)
       | None => (None, 0)
       end.

End RegExp.

Import RegExp.

(** [matchAll] of index.js, lines 21-27: the loop
    [while ((match = regex.exec(string))) cb(match)], as the list of the
    matches handed to [cb], in order, and the [lastIndex] the expression
    is left with.  [None] when the loop is still running after [fuel]
    calls of [exec]. *)
Fixpoint matchAll_loop (fuel : nat) (r : regex) (s : jsstring) (last : nat)
  : option (list result * nat) :=
  match fuel with
  | 0 => None
  | S fuel' =>
      match exec r s last with
      | (Some m, last') =>
          match matchAll_loop fuel' r s last' with
          | Some (ms, l) => Some (m :: ms, l)
          | None => None
          end
      | (None, last') => Some ([], last')
      end
  end.

(** The matches of a whole scan that starts with [lastIndex = 0], which
    is how every scan of either expression starts: a scan that ends
    leaves [lastIndex] at 0 and neither callback throws, so that the scans
    of a run, which share the two expression objects, are as many scans
    from 0 ([scans_url], [scans_path]).  One call of [exec] per code unit
    and one more are enough for both expressions ([matchAll_url_total],
    [matchAll_path_total]). *)
Definition matchAll (r : regex) (s : jsstring) : list result :=
  match matchAll_loop (S (length s)) r s 0 with
  | Some (ms, _) => ms
  | None => []
  end.

(** Scans of several texts with one expression object, one after the
    other: each starts from the [lastIndex] the one before has left. *)
Fixpoint scans (r : regex) (texts : list jsstring) (last : nat)
  : option (list (list result) * nat) :=
  match texts with
  | [] => Some ([], last)
  | t :: texts' =>
      match matchAll_loop (S (length t)) r t last with
      | Some (ms, l) =>
          match scans r texts' l with
          | Some (mss, l') => Some (ms :: mss, l')
          | None => None
          end
      | None => None
      end
  end.

(** Element [n] of a match array where it is used as a string;
    an absent or undefined element reads as the text [undefined]. *)
Definition group (n : nat) (m : result) : jsstring :=
  match array m !! n with
  | Some (Some s) => s
  | _ => js "undefined"
  end.

(** ** The two expressions of index.js, lines 29-32 *)

Fixpoint lit (s : string) : regex :=
  match s with
  | EmptyString => Eps
  | String a s' => Seq (Chr (cu a)) (lit s')
  end.

Infix "⋅" := Seq (at level 60, right associativity).

(** [[\w\d?&=#.!:_-]] *)
Definition path_first : list class_item :=
  [Word; Digit; One (cu "?"); One (cu "&"); One (cu "="); One (cu "#");
   One (cu "."); One (cu "!"); One (cu ":"); One (cu "_"); One (cu "-")].

(** [[\w\d?/&=#.!:_-]] *)
Definition path_more : list class_item :=
  [Word; Digit; One (cu "?"); One (cu "/"); One (cu "&"); One (cu "=");
   One (cu "#"); One (cu "."); One (cu "!"); One (cu ":"); One (cu "_");
   One (cu "-")].

(** [[\s,'Q|()<>[\]]], Q standing for the double quote U+0022 here and
    below. *)
Definition url_stop : list class_item :=
  [Space; One (cu ","); One squote; One dquote; One (cu "|"); One (cu "(");
   One (cu ")"); One (cu "<"); One (cu ">"); One (cu "["); One (cu "]")].

(** [https?:\/\/] *)
Definition scheme : regex := lit "http" ⋅ Opt (Chr (cu "s")) ⋅ lit "://".

(** [/(Q|')(\/[\w\d?&=#.!:_-][\w\d?/&=#.!:_-]*?)\1/g] *)
Definition regex_path : regex :=
  Group 1 (Alt (Chr dquote) (Chr squote))
  ⋅ Group 2 (Chr (cu "/") ⋅ Class false path_first
             ⋅ LazyStar (Class false path_more))
  ⋅ Backref 1.

(** [/(https?:\/\/[^\s,'Q|()<>[\]]+?)(?=https?:\/\/|[\s,'Q|()<>[\]])/g] *)
Definition regex_url : regex :=
  Group 1 (scheme ⋅ LazyPlus (Class true url_stop))
  ⋅ Lookahead (Alt scheme (Class false url_stop)).

(** The raw matches of the two scans: the callbacks of lines 183, 205
    and 215 read element 1 of a URL match and element 2 of a path match. *)
Definition extractUrls (text : jsstring) : list jsstring :=
  map (group 1) (matchAll regex_url text).

Definition extractPaths (text : jsstring) : list jsstring :=
  map (group 2) (matchAll regex_path text).

(** ** The response handler (index.js, lines 137-216) *)

(** What the handler reads of a WHATWG [URL] object. *)
Record URL := mkURL {
  href : jsstring;
  hostname : jsstring;
  pathname : jsstring
}.

(** What the handler reads of a response: [resp.url()], the text
    [JSON.stringify(resp.headers())], and what [resp.text()] settles to,
    [None] when it rejects. *)
Record Response := mkResponse {
  url : jsstring;
  headers : jsstring;
  text : option jsstring
}.

(** The three append-only streams, and the writes: a finding is one call
    of [write] on one of them. *)
Inductive stream := paths | subdomains | urls.

Inductive Finding :=
| SubdomainFinding (host : jsstring)            (* line 163 *)
| UrlFinding (u : URL)                          (* line 166 *)
| PathFinding (source : URL) (path : jsstring). (* line 156 *)

(** The stream a finding goes to and the text written there. *)
Definition written (f : Finding) : stream * jsstring :=
  match f with
  | SubdomainFinding h => (subdomains, h ++ js (String "010" EmptyString))
  | UrlFinding u => (urls, href u ++ js (String "010" EmptyString))
  | PathFinding src p =>
      (paths, href src ++ js " -> " ++ p ++ js (String "010" EmptyString))
  end.

(** Handler code runs on [uniqueDomains] and appends to the streams. *)
Definition Emit (A : Type) : Type :=
  gset jsstring -> A * gset jsstring * list Finding.

Global Instance Emit_ret : MRet Emit :=
  fun A a uniqueDomains => (a, uniqueDomains, []).

Global Instance Emit_bind : MBind Emit := fun A B f c uniqueDomains =>
  let '(a, uniqueDomains1, out1) := c uniqueDomains in
  let '(b, uniqueDomains2, out2) := f a uniqueDomains1 in
  (b, uniqueDomains2, out1 ++ out2).

Definition write (f : Finding) : Emit unit :=
  fun uniqueDomains => (tt, uniqueDomains, [f]).

(** [uniqueDomains.has(h)] and [uniqueDomains.add(h)]. *)
Definition has (h : jsstring) : Emit bool :=
  fun uniqueDomains => (bool_decide (h ∈ uniqueDomains), uniqueDomains, []).

Definition add (h : jsstring) : Emit unit :=
  fun uniqueDomains => (tt, {[h]} ∪ uniqueDomains, []).

Fixpoint forEach {A} (l : list A) (f : A -> Emit unit) : Emit unit :=
  match l with
  | [] => mret tt
  | a :: l' => f a ;; forEach l' f
  end.

(** The state a computation ends in, and what it wrote. *)
Definition final {A} (c : Emit A) (uniqueDomains : gset jsstring)
  : gset jsstring :=
  (c uniqueDomains).1.2.

Definition emitted {A} (c : Emit A) (uniqueDomains : gset jsstring)
  : list Finding :=
  (c uniqueDomains).2.

Definition value {A} (c : Emit A) (uniqueDomains : gset jsstring) : A :=
  (c uniqueDomains).1.1.

(** What the handler closes over: the platform's [new URL(s)], [None]
    when it throws, and [path.parse(p).ext], both left open, and the root
    domains and dotted extensions of the run (lines 90-99 and 101-127). *)
Record Config := mkConfig {
  parseURL : jsstring -> option URL;
  extname : jsstring -> jsstring;
  domains : list jsstring;
  extensions : list jsstring
}.

(** Lines 149-153. *)
Definition inScope (domains : list jsstring) (subdomain : jsstring) : bool :=
  negb (startsWith subdomain (js "*."))
  && existsb (fun domain =>
                streq subdomain domain
                || endsWith subdomain (js "." ++ domain)) domains.

(** [ext && !extensions.includes(ext)], line 195. *)
Definition skipsBody (extensions : list jsstring) (ext : jsstring) : bool :=
  negb (bool_decide (ext = [])) && negb (existsb (streq ext) extensions).

Section Handler.

Variable cfg : Config.

(** Lines 155-157. *)
Definition handlePath (source : URL) (path : jsstring) : Emit unit :=
  write (PathFinding source path).

(** Lines 159-168. *)
Definition handleURL (u : URL) : Emit unit :=
  if inScope (domains cfg) (hostname u) then
    known ← has (hostname u);
    (if negb known
     then add (hostname u) ;; write (SubdomainFinding (hostname u))
     else mret tt) ;;
    write (UrlFinding u)
  else mret tt.

(** The callback of lines 183-191 and 205-213. *)
Definition handleMatch (m : result) : Emit unit :=
  match parseURL cfg (group 1 m) with
  | None => mret tt
  | Some u => handleURL u
  end.

(** The scan of lines 183-191, and again of lines 205-213. *)
Definition scanURLs (text : jsstring) : Emit unit :=
  forEach (matchAll regex_url text) handleMatch.

(** The scan of line 215. *)
Definition scanPaths (u : URL) (text : jsstring) : Emit unit :=
  forEach (matchAll regex_path text) (fun m => handlePath u (group 2 m)).

(** Lines 171-200, the handler up to its only [await]: the value is the
    parsed URL when [resp.text()] has been called, [None] when the handler
    has returned before. *)
Definition on_response_head (resp : Response) : Emit (option URL) :=
  match parseURL cfg (url resp) with
  | None => mret None
  | Some u =>
      handleURL u ;;
      scanURLs (headers resp) ;;
      if skipsBody (extensions cfg) (extname cfg (pathname u)) then mret None
      else mret (Some u)
  end.

(** Lines 200-215, the handler after [resp.text()] has settled. *)
Definition on_response_tail (u : URL) (body : option jsstring) : Emit unit :=
  match body with
  | None => mret tt
  | Some text => scanURLs text ;; scanPaths u text
  end.

(** One response handled from its event to its end. *)
Definition handleResponse (resp : Response) : Emit unit :=
  awaiting ← on_response_head resp;
  match awaiting with
  | None => mret tt
  | Some u => on_response_tail u (text resp)
  end.

(** A run is a sequence of turns of the event loop; each is the start of
    a handler or the rest of one whose [resp.text()] has settled.  Turns
    of different responses may alternate. *)
Inductive turn :=
| Arrives (resp : Response)
| Settles (u : URL) (body : option jsstring).

Definition take_turn (t : turn) : Emit unit :=
  match t with
  | Arrives resp => on_response_head resp ;; mret tt
  | Settles u body => on_response_tail u body
  end.

(** [uniqueDomains] is empty when the handler is installed (line 137). *)
Definition run (ts : list turn) : gset jsstring * list Finding :=
  (final (forEach ts take_turn) ∅, emitted (forEach ts take_turn) ∅).

End Handler.

(** ** The platform on plain inputs

    For the concrete runs below: [new URL] and [path.parse] on the plain
    inputs they are used on there.  [plainURL] covers the texts
    [http://host/path] and [https://host/path] with a host of lower-case
    letters and dots that starts with a letter and a path of word
    characters, [/], [.] and [-] without a segment that starts with a dot;
    [new URL] leaves such a text as it is.  Texts without a scheme are
    rejected by [new URL] as they are here. *)
Module Plain.

Definition host_char (c : N) : bool := in_range 97 122 c || (c =? 46)%N.

Definition path_char (c : N) : bool :=
  is_word c || (c =? 47)%N || (c =? 46)%N || (c =? 45)%N.

Fixpoint span (p : N -> bool) (s : jsstring) : jsstring * jsstring :=
  match s with
  | c :: t => if p c then let '(a, b) := span p t in (c :: a, b) else ([], s)
  | [] => ([], [])
  end.

Fixpoint dot_segment (s : jsstring) : bool :=
  match s with
  | a :: t =>
      match t with
      | b :: _ => (a =? 47)%N && (b =? 46)%N || dot_segment t
      | [] => false
      end
  | [] => false
  end.

Definition after_scheme (s : jsstring) : option jsstring :=
  if startsWith s (js "https://") then Some (drop 8 s)
  else if startsWith s (js "http://") then Some (drop 7 s)
  else None.

Definition plainURL (s : jsstring) : option URL :=
  match after_scheme s with
  | None => None
  | Some t =>
      let '(host, path) := span host_char t in
      match host, path with
      | h :: _, p :: _ =>
          if in_range 97 122 h && (p =? 47)%N && forallb path_char path
             && negb (dot_segment path)
          then Some (mkURL s host path) else None
      | _, _ => None
      end
  end.

(** The extension of the last segment: from its last dot on, unless the
    segment has no dot or starts with its only candidate. *)
Fixpoint from_last_dot (rbase acc : jsstring) : jsstring :=
  match rbase with
  | [] => []
  | c :: t =>
      if (c =? 46)%N then match t with [] => [] | _ :: _ => c :: acc end
      else from_last_dot t (c :: acc)
  end.

Definition plain_extname (p : jsstring) : jsstring :=
  let r := (span (fun c => (c =? 47)%N) (reverse p)).2 in
  from_last_dot (span (fun c => negb (c =? 47)%N) r).1 [].

End Plain.


(** ** Vocabulary of the extraction properties *)

(** The two scheme prefixes [https?:\/\/] accepts. *)
Definition is_scheme (s : jsstring) : Prop :=
  s = js "http://" \/ s = js "https://".

(** A delimiter of URL text: a member of the class of [regex.url]. *)
Definition stops (c : N) : bool := class_mem url_stop c.

(** What the lookahead of [regex.url] asks of the text after a match. *)
Definition terminated (after : jsstring) : Prop :=
  (exists c t, after = c :: t /\ stops c = true)
  \/ (exists sch t, is_scheme sch /\ after = sch ++ t).

Definition is_quote (c : N) : Prop := c = dquote \/ c = squote.

(** The host names of the subdomain findings of a trace, in order. *)
Fixpoint subdomain_findings (out : list Finding) : list jsstring :=
  match out with
  | SubdomainFinding h :: out' => h :: subdomain_findings out'
  | _ :: out' => subdomain_findings out'
  | [] => []
  end.

(** The lookahead of [regex.url]. *)
Definition url_ahead : regex := Alt scheme (Class false url_stop).

(** A finding that was checked against the root domains. *)
Definition scoped (domains : list jsstring) (f : Finding) : Prop :=
  match f with
  | SubdomainFinding h => inScope domains h = true
  | UrlFinding u => inScope domains (hostname u) = true
  | PathFinding _ _ => False
  end.

(** What ties [uniqueDomains] to the subdomain findings written so far. *)
Definition dedup_inv (uniqueDomains : gset jsstring) (out : list Finding)
  : Prop :=
  (forall h, h ∈ uniqueDomains <-> In (SubdomainFinding h) out)
  /\ NoDup (subdomain_findings out).

(** A finding written for the URL [u] by [handleURL]. *)
Definition about (u : URL) (f : Finding) : Prop :=
  f = SubdomainFinding (hostname u) \/ f = UrlFinding u.

(** A finding written for a URL that was matched in [text] and parsed. *)
Definition found_in (cfg : Config) (text : jsstring) (f : Finding) : Prop :=
  exists raw v,
    In raw (extractUrls text) /\ parseURL cfg raw = Some v /\ about v f.

(** A computation that keeps [uniqueDomains] and the trace tied. *)
Definition keeps_dedup {A} (c : Emit A) : Prop :=
  forall uniqueDomains out, dedup_inv uniqueDomains out ->
    dedup_inv (final c uniqueDomains) (out ++ emitted c uniqueDomains).

(** The host name a finding is about: its own, that of its URL, or that
    of the response it was found in. *)
Definition host_of (f : Finding) : jsstring :=
  match f with
  | SubdomainFinding h => h
  | UrlFinding u => hostname u
  | PathFinding source _ => hostname source
  end.

(** A text between two double quotes, as a literal stands in a body. *)
Definition quoted (s : jsstring) : jsstring := dquote :: s ++ [dquote].

(** Two URLs written one after the other. *)
Definition two_urls : jsstring := js "http://a.com/xhttp://b.com/y".

(** ** Concrete runs *)

(** A run for the root domain [example.com] that reads the bodies of
    [.js] files, on the plain platform. *)
Definition example_cfg : Config :=
  mkConfig Plain.plainURL Plain.plain_extname [js "example.com"] [js ".js"].

(** A script served by another host, with a path literal in it. *)
Definition foreign_script : Response :=
  mkResponse (js "https://cdn.other.net/app.js") (js "{}")
    (Some (js "fetch(" ++ quoted (js "/api/v1/users") ++ js ")")).

(** The headers [{ location: 'https://cdn.example.com/a.js' }] as
    [JSON.stringify] writes them. *)
Definition location_header : jsstring :=
  js "{" ++ quoted (js "location") ++ js ":"
  ++ quoted (js "https://cdn.example.com/a.js") ++ js "}".

(** An image with a URL in its headers and, were it read, a URL and a
    path in its body. *)
Definition image : Response :=
  mkResponse (js "https://app.example.com/logo.png") location_header
    (Some (quoted (js "https://img.example.com/x.js") ++ js " "
           ++ quoted (js "/api/v1/users"))).

(** The page of the end-to-end scenario. *)
Definition page : Response :=
  mkResponse (js "https://app.example.com/page") (js "{}")
    (Some (js "<script src=" ++ quoted (js "https://cdn.example.com/a.js")
           ++ js "></script> fetch(" ++ quoted (js "/api/v1/users")
           ++ js ")")).

(** A response whose URL has no scheme. *)
Definition unparsable : Response :=
  mkResponse (js "not a url") location_header
    (Some (quoted (js "/api/v1/users"))).

Definition app_page : URL :=
  mkURL (js "https://app.example.com/page") (js "app.example.com")
    (js "/page").

Definition app_logo : URL :=
  mkURL (js "https://app.example.com/logo.png") (js "app.example.com")
    (js "/logo.png").

Definition cdn_script : URL :=
  mkURL (js "https://cdn.example.com/a.js") (js "cdn.example.com")
    (js "/a.js").

Definition other_script : URL :=
  mkURL (js "https://cdn.other.net/app.js") (js "cdn.other.net")
    (js "/app.js").

(** * The start of a run (index.js, lines 11-13 and 43-134) *)

(** ** Arrays and strings of the platform *)

(** [String.prototype.split] with a separator of one code unit: the
    pieces between the separators, empty ones included; the empty text has
    the one piece that is empty. *)
Fixpoint split (sep : N) (s : jsstring) : list jsstring :=
  match s with
  | [] => [[]]
  | c :: t =>
      if (c =? sep)%N then [] :: split sep t
      else match split sep t with
           | p :: ps => (c :: p) :: ps
           | [] => [[c]]
           end
  end.

(** A string is truthy when it is not empty. *)
Definition truthy (s : jsstring) : bool :=
  match s with [] => false | _ :: _ => true end.

(** [.split(sep).filter(Boolean)]. *)
Definition pieces (sep : N) (s : jsstring) : list jsstring :=
  filter (fun p => truthy p = true) (split sep s).

(** [[...new Set(l)]]: a set keeps its elements in the order they were
    first added. *)
Definition set_add (acc : list jsstring) (x : jsstring) : list jsstring :=
  if bool_decide (x ∈ acc) then acc else acc ++ [x].

Definition uniq (l : list jsstring) : list jsstring :=
  fold_left set_add l [].

(** [Array.prototype.join]. *)
Fixpoint join (sep : jsstring) (l : list jsstring) : jsstring :=
  match l with
  | [] => []
  | [x] => x
  | x :: l' => x ++ sep ++ join sep l'
  end.

(** [String.prototype.trim]: white space and line terminators are taken
    off both ends. *)
Fixpoint trimStart (s : jsstring) : jsstring :=
  match s with
  | c :: t => if is_space c then trimStart t else s
  | [] => []
  end.

Definition trim (s : jsstring) : jsstring :=
  reverse (trimStart (reverse (trimStart s))).

Definition comma : N := cu ",".
Definition newline : N := 10%N.

(** ** The options and what the action finds around it *)

(** The options as commander hands them over; an option that was not
    given is [None]. *)
Record Options := mkOptions {
  opt_domains : option jsstring;
  opt_extensions : option jsstring;
  opt_file : option jsstring;
  opt_output : jsstring;
  opt_pause : bool;
  opt_url : option jsstring;
  opt_proxy : option jsstring
}.

(** What the action reads from outside: [fs.promises.readFile(f, 'utf8')],
    [None] when it rejects; [lstat(p)], [None] when it rejects, and
    otherwise whether [p] is a directory; [new URL] and [path.parse] as
    before; [String.prototype.toLowerCase]; and the text of
    [lists/extensions.txt]. *)
Record World := mkWorld {
  readFile : jsstring -> option jsstring;
  isDirectory : jsstring -> option bool;
  newURL : jsstring -> option URL;
  path_ext : jsstring -> jsstring;
  toLowerCase : jsstring -> jsstring;
  extensions_txt : jsstring
}.

(** The messages the action ends the process with (exit code 1). *)
Inductive failure :=
| CannotReadFile (file : jsstring)     (* line 52 *)
| InvalidURLInFile                     (* line 62 *)
| InvalidURL                           (* line 69 *)
| MustSpecify                          (* line 75 *)
| NotADirectory (output : jsstring)    (* line 86 *)
| NoDomains.                           (* line 97 *)

(** What the action has in hand when it launches the browser. *)
Record Plan := mkPlan {
  plan_urls : list URL;
  plan_pause : bool;
  plan_domains : list jsstring;
  plan_extensions : list jsstring;     (* after line 127 *)
  plan_exts : jsstring;                (* the text of line 125 *)
  plan_args : list jsstring
}.

(** An option that is given and not empty. *)
Definition given (o : option jsstring) : option jsstring :=
  match o with
  | Some s => if truthy s then Some s else None
  | None => None
  end.

(** [o || ''] *)
Definition or_empty (o : option jsstring) : jsstring :=
  match given o with Some s => s | None => [] end.

(** Lines 11-13. *)
Definition EXTENSIONS (w : World) : list jsstring :=
  pieces newline (extensions_txt w).

(** [l.map(url => new URL(url))], which throws at the first text that
    does not parse. *)
Fixpoint parse_all (w : World) (l : list jsstring) : option (list URL) :=
  match l with
  | [] => Some []
  | s :: l' =>
      match newURL w s with
      | None => None
      | Some u =>
          match parse_all w l' with
          | Some us => Some (u :: us)
          | None => None
          end
      end
  end.

(** Lines 44-77: the URLs to visit and whether to pause. *)
Definition seeds (w : World) (o : Options)
  : failure + (list URL * bool) :=
  match given (opt_file o) with
  | Some file =>
      match readFile w file with
      | None => inl (CannotReadFile file)
      | Some data =>
          match parse_all w (pieces newline data) with
          | None => inl InvalidURLInFile
          | Some us => inr (us, opt_pause o)
          end
      end
  | None =>
      match given (opt_url o) with
      | Some s =>
          match newURL w s with
          | None => inl InvalidURL
          | Some u => inr ([u], true)
          end
      | None => inl MustSpecify
      end
  end.

(** Lines 90-94. *)
Definition root_domains (o : Options) : list jsstring :=
  uniq (pieces comma (or_empty (opt_domains o))).

(** Lines 101-110. *)
Definition extension_names (w : World) (o : Options) : list jsstring :=
  let given_names :=
    map (fun ext => toLowerCase w (trim ext))
      (pieces comma (or_empty (opt_extensions o))) in
  uniq (match given_names with
        | [] => EXTENSIONS w
        | _ :: _ => given_names
        end).

(** Lines 117-121. *)
Definition shown (extensions : list jsstring) : jsstring :=
  let exts := join (js ", ") (take 3 extensions) in
  if 3 <? length exts then exts ++ js ", etc." else exts.

(** Line 127. *)
Definition dotted (extensions : list jsstring) : list jsstring :=
  map (fun ext => js "." ++ ext) extensions.

(** Line 113. *)
Definition browser_args (o : Options) : list jsstring :=
  match given (opt_proxy o) with
  | Some proxy => [js "--proxy-server=" ++ proxy]
  | None => []
  end.

(** Lines 43-134, up to the launch of the browser. *)
Definition prepare (w : World) (o : Options) : failure + Plan :=
  match seeds w o with
  | inl e => inl e
  | inr (us, pause) =>
      match isDirectory w (opt_output o) with
      | Some true =>
          match root_domains o with
          | [] => inl NoDomains
          | (_ :: _) as ds =>
              inr (mkPlan us pause ds (dotted (extension_names w o))
                     (shown (extension_names w o)) (browser_args o))
          end
      | _ => inl (NotADirectory (opt_output o))
      end
  end.

(** The handler that a plan installs (lines 149-216). *)
Definition config_of (w : World) (p : Plan) : Config :=
  mkConfig (newURL w) (path_ext w) (plan_domains p) (plan_extensions p).

(** ** Vocabulary of the further properties *)

(** The findings of a trace that go to [urls.txt] and to [paths.txt]. *)
Fixpoint url_findings (out : list Finding) : list URL :=
  match out with
  | UrlFinding u :: out' => u :: url_findings out'
  | _ :: out' => url_findings out'
  | [] => []
  end.

Fixpoint path_findings (out : list Finding) : list (URL * jsstring) :=
  match out with
  | PathFinding src p :: out' => (src, p) :: path_findings out'
  | _ :: out' => path_findings out'
  | [] => []
  end.

(** The URLs that parse among raw matches, in order. *)
Definition parsed (cfg : Config) (raws : list jsstring) : list URL :=
  omap (parseURL cfg) raws.



(** A URL whose host name is in scope, and the host names that a list of
    URLs brings past the scope test of [handleURL]. *)
Definition passes (cfg : Config) (u : URL) : Prop :=
  inScope (domains cfg) (hostname u) = true.

Global Instance passes_dec (cfg : Config) (u : URL) :
  Decision (passes cfg u).
Proof. unfold passes. apply _. Defined.

Definition hosts (cfg : Config) (us : list URL) : list jsstring :=
  map hostname (filter (passes cfg) us).

(** Host names in their order of first appearance, those of [seen] left
    out. *)
Fixpoint fresh (seen : gset jsstring) (hosts : list jsstring)
  : list jsstring :=
  match hosts with
  | [] => []
  | h :: hosts' =>
      if bool_decide (h ∈ seen) then fresh seen hosts'
      else h :: fresh ({[h]} ∪ seen) hosts'
  end.

(** In a trace, every URL finding comes after the subdomain finding of its
    host name. *)
Definition url_after_host (out : list Finding) : Prop :=
  forall pre u post,
    out = pre ++ UrlFinding u :: post ->
    In (SubdomainFinding (hostname u)) pre.

(** A computation that only adds host names in scope to [uniqueDomains],
    and takes none out. *)
Definition adds_in_scope {A} (cfg : Config) (c : Emit A) : Prop :=
  forall seen,
    seen ⊆ final c seen
    /\ forall h, h ∈ final c seen ->
         h ∈ seen \/ inScope (domains cfg) h = true.

(** A computation that keeps a trace in which URL findings come after
    their hosts that way. *)
Definition keeps_order {A} (c : Emit A) : Prop :=
  forall seen out,
    dedup_inv seen out /\ url_after_host out ->
    dedup_inv (final c seen) (out ++ emitted c seen)
    /\ url_after_host (out ++ emitted c seen).

(** Matches that come one after the other from position [last] on: each
    starts where the one before has ended, or later. *)
Fixpoint in_order (last : nat) (ms : list result) : Prop :=
  match ms with
  | [] => True
  | m :: ms' => last <= index m /\ in_order (endIndex m) ms'
  end.

(** The text of a path literal: a slash, a character of the first class,
    characters of the second. *)
Definition path_text (p : jsstring) : Prop :=
  exists c b,
    p = cu "/" :: c :: b
    /\ class_mem path_first c = true
    /\ Forall (fun d => class_mem path_more d = true) b.

(** The text of a URL match and what follows it: a scheme, then the
    shortest non-empty run without delimiter after which a delimiter or a
    scheme follows. *)
Definition url_text (u after : jsstring) : Prop :=
  exists sch body,
    u = sch ++ body
    /\ is_scheme sch /\ body <> []
    /\ Forall (fun c => stops c = false) body
    /\ terminated after
    /\ (forall b1 b2, body = b1 ++ b2 -> b1 <> [] -> b2 <> [] ->
          ~ terminated (b2 ++ after)).

(** The URLs that one turn puts past the scope test, and the paths it
    writes with their source. *)
Definition turn_urls (cfg : Config) (t : turn) : list URL :=
  match t with
  | Arrives resp =>
      match parseURL cfg (url resp) with
      | None => []
      | Some u =>
          filter (passes cfg) (u :: parsed cfg (extractUrls (headers resp)))
      end
  | Settles u (Some body) => filter (passes cfg) (parsed cfg (extractUrls body))
  | Settles u None => []
  end.

Definition turn_paths (t : turn) : list (URL * jsstring) :=
  match t with
  | Settles u (Some body) => map (pair u) (extractPaths body)
  | _ => []
  end.

(** ** A concrete start *)

(** [toLowerCase] on texts of ASCII: the letters [A-Z] become [a-z]. *)
Definition lower_ascii (s : jsstring) : jsstring :=
  map (fun c => if in_range 65 90 c then (c + 32)%N else c) s.

(** A seed file of two URLs with an empty line between them. *)
Definition seed_text : jsstring :=
  js "https://app.example.com/page" ++ [newline; newline]
  ++ js "https://app.example.com/logo.png" ++ [newline].

(** A machine with the file [urls.txt], the directory [out] and an
    extension list of two names. *)
Definition example_world : World :=
  mkWorld
    (fun f => if streq f (js "urls.txt") then Some seed_text else None)
    (fun p => if streq p (js "out") then Some true
              else if streq p (js "urls.txt") then Some false else None)
    Plain.plainURL Plain.plain_extname lower_ascii
    (js "js" ++ [newline] ++ js "json" ++ [newline]).

(** [-d example.com,,example.org,example.com -e 'JS, css' -f urls.txt
    -o out -u https://cdn.example.com/a.js] *)
Definition example_options : Options :=
  mkOptions (Some (js "example.com,,example.org,example.com"))
    (Some (js "JS, css")) (Some (js "urls.txt")) (js "out") false
    (Some (js "https://cdn.example.com/a.js")) None.

(** The same without [-f]. *)
Definition url_options : Options :=
  mkOptions (Some (js "example.com,,example.org,example.com"))
    (Some (js "JS, css")) None (js "out") false
    (Some (js "https://cdn.example.com/a.js")) None.

Definition example_plan : Plan :=
  mkPlan [app_page; app_logo] false [js "example.com"; js "example.org"]
    [js ".js"; js ".css"] (js "js, css, etc.") [].
(** * Properties *)

(** ** Strings *)

Lemma startsWith_spec (s p : jsstring) :
  startsWith s p = true <-> exists t, s = p ++ t.
Proof.
  revert s. induction p as [|a p IH]; intros s; simpl.
  - split; eauto.
  - destruct s as [|b s].
    + split; [discriminate | intros [t Ht]; discriminate].
    + rewrite andb_true_iff, N.eqb_eq, IH. split.
      * intros [-> [t ->]]. eauto.
      * intros [t Ht]. injection Ht as -> ->. eauto.
Qed.

Lemma endsWith_spec (s p : jsstring) :
  endsWith s p = true <-> exists k, s = k ++ p.
Proof.
  unfold endsWith. rewrite andb_true_iff, Nat.leb_le, startsWith_spec. split.
  - intros [Hle [t Ht]].
    exists (take (length s - length p) s).
    assert (Hlen : length (drop (length s - length p) s) = length (p ++ t))
      by (now rewrite Ht).
    rewrite length_drop, length_app in Hlen.
    assert (t = []) as -> by (apply length_zero_iff_nil; lia).
    rewrite app_nil_r in Ht. rewrite <- Ht at 2. symmetry. apply take_drop.
  - intros [k ->]. rewrite length_app. split; [lia|].
    exists []. rewrite app_nil_r.
    replace (length k + length p - length p) with (length k) by lia.
    apply drop_app_length.
Qed.

Lemma streq_spec (s t : jsstring) : streq s t = true <-> s = t.
Proof. unfold streq. apply bool_decide_eq_true. Qed.

(** ** The scope filter *)

Lemma inScope_spec (domains : list jsstring) (h : jsstring) :
  inScope domains h = true <->
  ~ (exists t, h = js "*." ++ t) /\
  exists d, In d domains /\ (h = d \/ exists k, h = k ++ js "." ++ d).
Proof.
  unfold inScope.
  rewrite andb_true_iff, negb_true_iff, <- not_true_iff_false,
    startsWith_spec, existsb_exists.
  split; intros [Hw [d [Hd Hm]]]; (split; [exact Hw|]); exists d;
    (split; [exact Hd|]).
  - apply orb_true_iff in Hm as [Hm|Hm].
    + left. now apply streq_spec.
    + right. now apply endsWith_spec.
  - apply orb_true_iff. destruct Hm as [Hm|Hm].
    + left. now apply streq_spec.
    + right. now apply endsWith_spec.
Qed.

(** C2.  [inScope] holds of a host name exactly when the name does not
    start with the wildcard marker and, for some root domain, is that
    domain or ends with a dot followed by it.  This holds for every list
    of root domains, the non-empty ones in particular.  The comparison is
    on code units, so it is case-sensitive, and a name that merely ends
    with the letters of a root domain is out of scope: [evilexample.com]
    and [Example.com] are not in the scope of [example.com]. *)
Theorem inScope_iff :
  (forall (domains : list jsstring) (h : jsstring),
     inScope domains h = true <->
     ~ (exists t, h = js "*." ++ t) /\
     exists d, In d domains /\ (h = d \/ exists k, h = k ++ js "." ++ d))
  /\ inScope [js "example.com"] (js "evilexample.com") = false
  /\ inScope [js "example.com"] (js "Example.com") = false.
Proof.
  split; [exact inScope_spec|]. split; reflexivity.
Qed.

Example inScope_root : inScope [js "example.com"] (js "example.com") = true.
Proof. reflexivity. Qed.

Example inScope_sub :
  inScope [js "example.com"] (js "sub.example.com") = true.
Proof. reflexivity. Qed.

Example inScope_wildcard :
  inScope [js "example.com"] (js "*.example.com") = false.
Proof. reflexivity. Qed.

(** ** The matcher on the shapes the two expressions are made of *)

Lemma advance_rest (x : mstate) : advance x (rest x) = x.
Proof. now destruct x. Qed.

Lemma consumed_app (pre t : jsstring) (c c' : list (option jsstring)) :
  consumed (MState (pre ++ t) c) (MState t c') = pre.
Proof.
  unfold consumed; simpl. rewrite length_app.
  replace (length pre + length t - length t) with (length pre) by lia.
  apply take_app_length.
Qed.

Lemma consumed_pre (x y : mstate) (pre : jsstring) :
  rest x = pre ++ rest y -> consumed x y = pre.
Proof.
  intros H. unfold consumed. rewrite H, length_app.
  replace (length pre + length (rest y) - length (rest y))
    with (length pre) by lia.
  apply take_app_length.
Qed.

Lemma no_progress_false (t : jsstring) :
  (length t =? S (length t)) = false.
Proof. apply Nat.eqb_neq. lia. Qed.

Lemma lit_inv (s : string) (x : mstate) (k : cont) (z : mstate) :
  matcher (lit s) x k = Some z ->
  exists t, rest x = js s ++ t /\ k (advance x t) = Some z.
Proof.
  revert x. induction s as [|a s IH]; intros x H; simpl in H.
  - exists (rest x). split; [reflexivity|]. now rewrite advance_rest.
  - destruct (rest x) as [|d t] eqn:Hx; [discriminate|].
    destruct (N.eqb_spec (cu a) d) as [<-|]; [|discriminate].
    apply IH in H as [t' [Ht Hk]]. simpl in Ht. subst t.
    exists t'. split; [reflexivity | exact Hk].
Qed.

Lemma lit_complete (s : string) (x : mstate) (k : cont) (t : jsstring) :
  rest x = js s ++ t -> matcher (lit s) x k = k (advance x t).
Proof.
  revert x. induction s as [|a s IH]; intros x H.
  - simpl in *. rewrite <- H. now rewrite advance_rest.
  - change (js (String a s) ++ t) with (cu a :: js s ++ t) in H.
    cbn [lit matcher]. rewrite H, N.eqb_refl.
    now rewrite (IH (advance x (js s ++ t))).
Qed.

Lemma opt_chr (c : N) (x : mstate) (k : cont) :
  matcher (Opt (Chr c)) x k =
  match rest x with
  | d :: t =>
      if (c =? d)%N
      then match k (advance x t) with Some z => Some z | None => k x end
      else k x
  | [] => k x
  end.
Proof.
  simpl. destruct (rest x) as [|d t]; [reflexivity|].
  destruct (c =? d)%N; [|reflexivity].
  simpl. now rewrite no_progress_false.
Qed.

Lemma matcher_seq (r1 r2 : regex) (x : mstate) (k : cont) :
  matcher (r1 ⋅ r2) x k = matcher r1 x (fun y => matcher r2 y k).
Proof. reflexivity. Qed.

Lemma scheme_inv (x : mstate) (k : cont) (z : mstate) :
  matcher scheme x k = Some z ->
  exists sch t, is_scheme sch /\ rest x = sch ++ t /\ k (advance x t) = Some z.
Proof.
  unfold scheme. rewrite matcher_seq. intros H.
  apply lit_inv in H as [t1 [Hx H]]. rewrite matcher_seq, opt_chr in H.
  cbn [rest advance] in H.
  destruct t1 as [|d t].
  { apply lit_inv in H as [t' [Ht _]]. discriminate. }
  destruct (N.eqb_spec (cu "s") d) as [<-|Hd].
  - destruct (matcher (lit "://") _ k) eqn:H1 in H.
    + injection H as ->. apply lit_inv in H1 as [t' [Ht Hk]].
      cbn [rest advance] in Ht. subst t.
      exists (js "https://"), t'. split; [now right|]. now split.
    + apply lit_inv in H as [t' [Ht _]]. discriminate.
  - apply lit_inv in H as [t' [Ht Hk]]. cbn [rest advance] in Ht.
    exists (js "http://"), t'. split; [now left|]. split; [|exact Hk].
    rewrite Hx, Ht. reflexivity.
Qed.

Lemma scheme_complete (x : mstate) (k : cont) (sch t : jsstring) :
  is_scheme sch -> rest x = sch ++ t -> matcher scheme x k = k (advance x t).
Proof.
  unfold scheme. rewrite matcher_seq. intros [-> | ->] Hx.
  - rewrite (lit_complete "http" x _ (js "://" ++ t)) by exact Hx.
    rewrite matcher_seq, opt_chr. cbn. reflexivity.
  - rewrite (lit_complete "http" x _ (js "s://" ++ t)) by exact Hx.
    rewrite matcher_seq, opt_chr. cbn. now destruct (k _).
Qed.

Lemma matcher_group (n : nat) (r : regex) (x : mstate) (k : cont) :
  matcher (Group n r) x k =
  matcher r x
    (fun y => k (MState (rest y) (<[n := Some (consumed x y)]> (caps y)))).
Proof. reflexivity. Qed.

Lemma chr_inv (c : N) (x : mstate) (k : cont) (z : mstate) :
  matcher (Chr c) x k = Some z ->
  exists t, rest x = c :: t /\ k (advance x t) = Some z.
Proof.
  simpl. destruct (rest x) as [|d t]; [discriminate|].
  destruct (N.eqb_spec c d) as [<-|]; [|discriminate]. eauto.
Qed.

Lemma class_inv (neg : bool) (items : list class_item)
    (x : mstate) (k : cont) (z : mstate) :
  matcher (Class neg items) x k = Some z ->
  exists d t, rest x = d :: t /\ xorb neg (class_mem items d) = true
              /\ k (advance x t) = Some z.
Proof.
  simpl. destruct (rest x) as [|d t]; [discriminate|].
  destruct (xorb neg (class_mem items d)) eqn:Hd; [|discriminate]. eauto.
Qed.

Lemma matcher_lazyplus (r : regex) (x : mstate) (k : cont) :
  matcher (LazyPlus r) x k =
  matcher r (MState (rest x) (reset (groups r) (caps x)))
    (fun y => lazy_loop (matcher r) (groups r) (length (rest y)) y k).
Proof. reflexivity. Qed.

Lemma matcher_lazystar (r : regex) (x : mstate) (k : cont) :
  matcher (LazyStar r) x k =
  lazy_loop (matcher r) (groups r) (length (rest x)) x k.
Proof. reflexivity. Qed.

Lemma matcher_lookahead (r : regex) (x : mstate) (k : cont) :
  matcher (Lookahead r) x k =
  match matcher r x Some with
  | Some y => k (MState (rest x) (caps y))
  | None => None
  end.
Proof. reflexivity. Qed.

(** A lazy run over a character class stops at the first place where the
    continuation succeeds. *)
Lemma lazy_class_inv (neg : bool) (items : list class_item) (fuel : nat)
    (x : mstate) (k : cont) (z : mstate) :
  lazy_loop (matcher (Class neg items)) [] fuel x k = Some z ->
  exists b t,
    rest x = b ++ t
    /\ Forall (fun c => xorb neg (class_mem items c) = true) b
    /\ k (advance x t) = Some z
    /\ forall b1 b2, b = b1 ++ b2 -> b2 <> [] ->
         k (advance x (b2 ++ t)) = None.
Proof.
  revert x. induction fuel as [|fuel IH]; intros x H;
    cbn [lazy_loop] in H; destruct (k x) eqn:Hk.
  1,3: injection H as ->; exists [], (rest x);
    rewrite advance_rest; repeat split; auto;
    intros b1 b2 Hb Hne; symmetry in Hb;
    apply app_eq_nil in Hb as [_ ->]; now destruct Hne.
  - discriminate.
  - apply class_inv in H as (d & t & Hx & Hd & H).
    cbn [rest advance caps reset foldr] in Hx, H.
    destruct (length t =? length (rest x)); [discriminate|].
    apply IH in H as (b & t' & Ht & Hb & Hz & Hmin).
    unfold advance in *. cbn [rest caps] in Ht, Hz, Hmin. subst t.
    exists (d :: b), t'. repeat split; auto.
    intros b1 b2 Hb12 Hne. destruct b1 as [|d1 b1].
    + simpl in Hb12. subst b2. simpl. rewrite <- Hx.
      now destruct x.
    + injection Hb12 as -> ->. now apply (Hmin b1 b2).
Qed.

Lemma url_ahead_inv (x y : mstate) :
  matcher url_ahead x Some = Some y -> terminated (rest x) /\ caps y = caps x.
Proof.
  unfold url_ahead. cbn [matcher]. fold scheme.
  destruct (matcher scheme x Some) eqn:Hs.
  - intros Hy. injection Hy as ->.
    apply scheme_inv in Hs as (sch & t & Hsch & Hx & Hy).
    injection Hy as <-. split; [|reflexivity]. right. eauto.
  - intros Hy. change (matcher (Class false url_stop) x Some = Some y) in Hy.
    apply class_inv in Hy as (d & t & Hx & Hd & Hy).
    injection Hy as <-. split; [|reflexivity]. left. eauto.
Qed.

Lemma url_ahead_complete (x : mstate) :
  terminated (rest x) -> matcher url_ahead x Some <> None.
Proof.
  unfold url_ahead. intros [(c & t & Hx & Hc) | (sch & t & Hsch & Hx)].
  - cbn [matcher]. fold scheme.
    destruct (matcher scheme x Some); [discriminate|].
    rewrite Hx. unfold stops in Hc. cbn [xorb]. now rewrite Hc.
  - cbn [matcher]. fold scheme.
    now rewrite (scheme_complete x Some sch t Hsch Hx).
Qed.

Lemma class_step (neg : bool) (items : list class_item) (d : N)
    (t : jsstring) (c : list (option jsstring)) (k : cont) :
  matcher (Class neg items) (MState (d :: t) c) k
  = if xorb neg (class_mem items d) then k (MState t c) else None.
Proof. reflexivity. Qed.

(** The bound on the iterations of a lazy run over a character class
    cuts nothing off: any bound from the length of the input ahead on gives
    the same result. *)
Lemma lazy_class_fuel (neg : bool) (items : list class_item)
    (fuel1 fuel2 : nat) (x : mstate) (k : cont) :
  length (rest x) <= fuel1 -> length (rest x) <= fuel2 ->
  lazy_loop (matcher (Class neg items)) [] fuel1 x k
  = lazy_loop (matcher (Class neg items)) [] fuel2 x k.
Proof.
  revert fuel2 x. induction fuel1 as [|fuel1 IH]; intros fuel2 x H1 H2;
    destruct fuel2 as [|fuel2]; cbn [lazy_loop];
    destruct (k x); try reflexivity;
    destruct (rest x) as [|d t] eqn:Hx; try reflexivity;
    simpl in H1, H2; try lia.
  rewrite !class_step. destruct (xorb neg (class_mem items d));
    [|reflexivity].
  cbn [rest]. destruct (length t =? length (d :: t)); [reflexivity|].
  apply IH; cbn [rest]; lia.
Qed.

(** One attempt of [regex.url]: a scheme, the shortest non-empty run of
    characters that are not delimiters after which the lookahead holds,
    and that run captured with the scheme as group 1. *)
Lemma regex_url_inv (l : jsstring) (y : mstate) :
  matcher regex_url (MState l [None; None]) Some = Some y ->
  exists sch body,
    is_scheme sch /\ body <> []
    /\ Forall (fun c => stops c = false) body
    /\ l = sch ++ body ++ rest y
    /\ terminated (rest y)
    /\ (forall b1 b2, body = b1 ++ b2 -> b1 <> [] -> b2 <> [] ->
          ~ terminated (b2 ++ rest y))
    /\ caps y = [None; Some (sch ++ body)].
Proof.
  unfold regex_url. rewrite matcher_seq, matcher_group, matcher_seq.
  intros H. apply scheme_inv in H as (sch & t & Hsch & Hl & H).
  cbn [rest] in Hl. subst l.
  rewrite matcher_lazyplus in H.
  apply class_inv in H as (d & t1 & Ht & Hd & H).
  cbn [groups reset foldr rest advance caps] in Ht, H. subst t.
  apply lazy_class_inv in H as (b & t' & Ht & Hb & H & Hmin).
  cbn [rest caps advance] in Ht, H, Hmin. subst t1.
  fold url_ahead in H, Hmin. rewrite matcher_lookahead in H.
  assert (Hmin' : forall b1 b2, b = b1 ++ b2 -> b2 <> [] ->
            matcher url_ahead
              (MState (b2 ++ t')
                 (<[1 := Some (consumed (MState (sch ++ d :: b ++ t')
                                           [None; None])
                                 (MState (b2 ++ t') [None; None]))]>
                    [None; None])) Some = None).
  { intros b1 b2 Hb12 Hb2. specialize (Hmin b1 b2 Hb12 Hb2).
    rewrite matcher_lookahead in Hmin.
    now destruct (matcher url_ahead _ Some). }
  clear Hmin.
  destruct (matcher url_ahead _ Some) as [y'|] eqn:Hy in H; [|discriminate].
  injection H as <-. apply url_ahead_inv in Hy as [Hterm Hcaps].
  unfold advance in Hcaps. cbn [rest caps] in Hterm, Hcaps.
  exists sch, (d :: b). split; [exact Hsch|]. split; [discriminate|].
  split.
  { unfold stops. constructor.
    - now destruct (class_mem url_stop d).
    - eapply Forall_impl; [exact Hb|].
      intros c Hc. cbv beta in Hc. now destruct (class_mem url_stop c). }
  split; [reflexivity|]. split; [exact Hterm|]. split.
  - intros b1 b2 Hb12 Hb1 Hb2 Hbad.
    destruct b1 as [|d1 b1]; [now destruct Hb1|].
    injection Hb12 as -> ->.
    cbn [rest] in Hbad.
    eapply url_ahead_complete; [|exact (Hmin' b1 b2 eq_refl Hb2)].
    exact Hbad.
  - cbn [rest caps]. rewrite Hcaps.
    replace (sch ++ d :: b ++ t') with ((sch ++ d :: b) ++ t')
      by (now rewrite <- app_assoc).
    now rewrite consumed_app.
Qed.

Lemma matcher_alt (r1 r2 : regex) (x : mstate) (k : cont) :
  matcher (Alt r1 r2) x k =
  match matcher r1 x k with
  | Some z => Some z
  | None => matcher r2 x k
  end.
Proof. reflexivity. Qed.

(** [regex.path] after its opening quote [q]. *)
Lemma path_tail_inv (q : N) (t : jsstring) (y : mstate) :
  matcher (Group 2 (Chr (cu "/") ⋅ Class false path_first
                    ⋅ LazyStar (Class false path_more))
           ⋅ Backref 1)
    (MState t [None; Some [q]; None]) Some = Some y ->
  exists c b,
    class_mem path_first c = true
    /\ Forall (fun d => class_mem path_more d = true) b
    /\ t = cu "/" :: c :: b ++ q :: rest y
    /\ caps y = [None; Some [q]; Some (cu "/" :: c :: b)].
Proof.
  rewrite matcher_seq, matcher_group, matcher_seq. intros H.
  apply chr_inv in H as (t1 & Ht & H). cbn [rest] in Ht. subst t.
  rewrite matcher_seq in H.
  apply class_inv in H as (c & t2 & Ht & Hc & H).
  unfold advance in Ht, H. cbn [rest caps] in Ht, H. subst t1.
  rewrite matcher_lazystar in H. cbn [groups rest] in H.
  apply lazy_class_inv in H as (b & t3 & Ht & Hb & H & _).
  unfold advance in H. cbn [rest caps] in Ht, H. subst t2.
  replace (cu "/" :: c :: b ++ t3) with ((cu "/" :: c :: b) ++ t3) in H
    by reflexivity.
  rewrite consumed_app in H. cbn in H.
  destruct t3 as [|q' t3]; [discriminate|].
  destruct (N.eqb_spec q q') as [<-|]; [|discriminate].
  cbn in H. injection H as <-.
  exists c, b. cbn [rest caps]. repeat split; auto.
Qed.

(** One attempt of [regex.path]: a quote, a slash, a character of the
    first class, a run of the second class, and the same quote again;
    group 2 is what stands between the quotes. *)
Lemma regex_path_inv (l : jsstring) (y : mstate) :
  matcher regex_path (MState l [None; None; None]) Some = Some y ->
  exists q c b,
    is_quote q
    /\ class_mem path_first c = true
    /\ Forall (fun d => class_mem path_more d = true) b
    /\ l = q :: cu "/" :: c :: b ++ q :: rest y
    /\ caps y = [None; Some [q]; Some (cu "/" :: c :: b)].
Proof.
  unfold regex_path. rewrite matcher_seq, matcher_group, matcher_alt.
  intros H.
  destruct (matcher (Chr dquote) _ _) as [z|] eqn:H1 in H.
  - injection H as ->. apply chr_inv in H1 as (t & Hl & H).
    cbn [rest] in Hl. subst l. unfold advance in H. cbn [rest caps] in H.
    change (dquote :: t) with ([dquote] ++ t) in H.
    rewrite consumed_app in H.
    apply path_tail_inv in H as (c & b & Hc & Hb & -> & Hy).
    exists dquote, c, b. repeat split; auto. now left.
  - apply chr_inv in H as (t & Hl & H).
    cbn [rest] in Hl. subst l. unfold advance in H. cbn [rest caps] in H.
    change (squote :: t) with ([squote] ++ t) in H.
    rewrite consumed_app in H.
    apply path_tail_inv in H as (c & b & Hc & Hb & -> & Hy).
    exists squote, c, b. repeat split; auto. now right.
Qed.

(** ** [exec] and the loop of [matchAll] *)

Lemma search_inv (r : regex) (s : jsstring) (n i : nat) (m : result) :
  search r s n i = Some m ->
  exists j, i <= j <= i + n /\ match_at r s j = Some m.
Proof.
  revert i. induction n as [|n IH]; intros i; simpl;
    destruct (match_at r s i) eqn:Hi; intros H.
  1,3: injection H as ->; exists i; split; [lia | exact Hi].
  - discriminate.
  - apply IH in H as (j & Hj & H). exists j. split; [lia | exact H].
Qed.

Lemma exec_some (r : regex) (s : jsstring) (last l' : nat) (m : result) :
  exec r s last = (Some m, l') ->
  l' = endIndex m
  /\ exists j, last <= j <= length s /\ match_at r s j = Some m.
Proof.
  unfold exec. destruct (length s <? last) eqn:Hlen; [discriminate|].
  apply Nat.ltb_ge in Hlen.
  destruct (search r s (length s - last) last) as [m'|] eqn:Hs;
    [|discriminate].
  intros H. injection H as -> <-. split; [reflexivity|].
  apply search_inv in Hs as (j & Hj & H). exists j. split; [lia | exact H].
Qed.

Lemma exec_none (r : regex) (s : jsstring) (last l' : nat) :
  exec r s last = (None, l') -> l' = 0.
Proof.
  unfold exec. destruct (length s <? last); [congruence|].
  destruct (search r s (length s - last) last); congruence.
Qed.

Lemma matchAll_loop_in (fuel : nat) (r : regex) (s : jsstring)
    (last l : nat) (ms : list result) (m : result) :
  matchAll_loop fuel r s last = Some (ms, l) -> In m ms ->
  exists j, j <= length s /\ match_at r s j = Some m.
Proof.
  revert last ms. induction fuel as [|fuel IH]; intros last ms; simpl;
    [discriminate|].
  destruct (exec r s last) as [[m'|] l'] eqn:He.
  - destruct (matchAll_loop fuel r s l') as [[ms' l'']|] eqn:Hl;
      [|discriminate].
    intros H. injection H as <- <-. intros [<-|Hin].
    + apply exec_some in He as (_ & j & Hj & H). exists j.
      split; [lia | exact H].
    + now apply (IH l' ms').
  - intros H. injection H as <- _. intros [].
Qed.

(** A scan that ends leaves [lastIndex] at 0, so that the next scan with
    the same expression starts from the beginning of its text. *)
Lemma matchAll_leaves_zero (fuel : nat) (r : regex) (s : jsstring)
    (last l : nat) (ms : list result) :
  matchAll_loop fuel r s last = Some (ms, l) -> l = 0.
Proof.
  revert last ms. induction fuel as [|fuel IH]; intros last ms; simpl;
    [discriminate|].
  destruct (exec r s last) as [[m'|] l'] eqn:He.
  - destruct (matchAll_loop fuel r s l') as [[ms' l'']|] eqn:Hl;
      [|discriminate].
    intros H. injection H as _ <-. now apply (IH l' ms').
  - intros H. injection H as _ <-. now apply exec_none in He.
Qed.

(** The loop ends when every match is longer than nothing. *)
Lemma matchAll_loop_total (r : regex) (s : jsstring) :
  (forall j m, match_at r s j = Some m -> j < endIndex m <= length s) ->
  forall fuel last, length s - last < fuel ->
  exists ms, matchAll_loop fuel r s last = Some (ms, 0).
Proof.
  intros Hpos. induction fuel as [|fuel IH]; intros last Hf; simpl; [lia|].
  destruct (exec r s last) as [[m|] l'] eqn:He.
  - apply exec_some in He as (-> & j & Hj & Hm).
    apply Hpos in Hm.
    destruct (IH (endIndex m)) as [ms Hms]; [lia|].
    rewrite Hms. eauto.
  - apply exec_none in He as ->. eauto.
Qed.

(** More calls than needed change nothing. *)
Lemma matchAll_loop_more (r : regex) (s : jsstring) (fuel extra last : nat)
    (res : list result * nat) :
  matchAll_loop fuel r s last = Some res ->
  matchAll_loop (fuel + extra) r s last = Some res.
Proof.
  revert last res. induction fuel as [|fuel IH]; intros last res; simpl;
    [discriminate|].
  destruct (exec r s last) as [[m|] l']; [|auto].
  destruct (matchAll_loop fuel r s l') as [[ms l]|] eqn:Hl; [|discriminate].
  now rewrite (IH _ _ Hl).
Qed.

Lemma matchAll_in (r : regex) (s : jsstring) (m : result) :
  In m (matchAll r s) ->
  exists j, j <= length s /\ match_at r s j = Some m.
Proof.
  unfold matchAll.
  destruct (matchAll_loop _ r s 0) as [[ms l]|] eqn:Hl; [|intros []].
  now apply (matchAll_loop_in _ _ _ _ _ _ _ Hl).
Qed.

(** ** Where the two expressions match *)

Lemma length_drop_app (s pre t : jsstring) (i : nat) :
  drop i s = pre ++ t -> pre <> [] ->
  i + length pre + length t = length s /\ s = take i s ++ pre ++ t
  /\ length (take i s) = i.
Proof.
  intros Hd Hpre.
  assert (Hlen : length (drop i s) = length pre + length t)
    by (now rewrite Hd, length_app).
  rewrite length_drop in Hlen.
  assert (0 < length pre) by (destruct pre; [congruence | simpl; lia]).
  split; [lia|]. split.
  - rewrite <- Hd. symmetry. apply take_drop.
  - rewrite length_take. lia.
Qed.

(** A match of [regex.url] at position [i]. *)
Lemma match_at_url (s : jsstring) (i : nat) (m : result) :
  match_at regex_url s i = Some m ->
  exists sch body after,
    is_scheme sch /\ body <> []
    /\ Forall (fun c => stops c = false) body
    /\ s = take i s ++ sch ++ body ++ after
    /\ length (take i s) = i
    /\ terminated after
    /\ (forall b1 b2, body = b1 ++ b2 -> b1 <> [] -> b2 <> [] ->
          ~ terminated (b2 ++ after))
    /\ m = Result i (i + length (sch ++ body))
             [Some (sch ++ body); Some (sch ++ body)].
Proof.
  unfold match_at.
  change (replicate (S (list_max (groups regex_url))) None)
    with [@None jsstring; None].
  destruct (matcher regex_url _ Some) as [y|] eqn:Hy; [|discriminate].
  intros H. injection H as <-.
  apply regex_url_inv in Hy
    as (sch & body & Hsch & Hb & Hns & Hd & Hterm & Hmin & Hcaps).
  exists sch, body, (rest y).
  assert (Hd' : drop i s = (sch ++ body) ++ rest y)
    by (now rewrite <- app_assoc).
  destruct (length_drop_app s (sch ++ body) (rest y) i Hd')
    as (Hlen & Hs & Hi).
  { destruct Hsch as [-> | ->]; discriminate. }
  repeat (split; [assumption|]).
  split; [now rewrite <- app_assoc in Hs|].
  repeat (split; [assumption|]).
  rewrite Hcaps. f_equal; [lia|].
  now rewrite (consumed_pre _ y (sch ++ body)).
Qed.

(** A match of [regex.path] at position [i]. *)
Lemma match_at_path (s : jsstring) (i : nat) (m : result) :
  match_at regex_path s i = Some m ->
  exists q c b after,
    is_quote q
    /\ class_mem path_first c = true
    /\ Forall (fun d => class_mem path_more d = true) b
    /\ s = take i s ++ q :: (cu "/" :: c :: b) ++ q :: after
    /\ length (take i s) = i
    /\ m = Result i (i + length (q :: (cu "/" :: c :: b) ++ [q]))
             [Some (q :: (cu "/" :: c :: b) ++ [q]); Some [q];
              Some (cu "/" :: c :: b)].
Proof.
  unfold match_at.
  change (replicate (S (list_max (groups regex_path))) None)
    with [@None jsstring; None; None].
  destruct (matcher regex_path _ Some) as [y|] eqn:Hy; [|discriminate].
  intros H. injection H as <-.
  apply regex_path_inv in Hy as (q & c & b & Hq & Hc & Hb & Hd & Hcaps).
  exists q, c, b, (rest y).
  assert (Hd' : drop i s = (q :: (cu "/" :: c :: b) ++ [q]) ++ rest y).
  { rewrite Hd. simpl. do 3 f_equal. now rewrite <- app_assoc. }
  destruct (length_drop_app s _ (rest y) i Hd') as (Hlen & Hs & Hi);
    [discriminate|].
  repeat (split; [assumption|]).
  split.
  { rewrite Hs at 1. f_equal. simpl. do 3 f_equal. now rewrite <- app_assoc. }
  split; [assumption|].
  rewrite Hcaps. f_equal; [lia|].
  now rewrite (consumed_pre _ y (q :: (cu "/" :: c :: b) ++ [q])).
Qed.

Lemma match_at_url_bounds (s : jsstring) (j : nat) (m : result) :
  match_at regex_url s j = Some m -> j < endIndex m <= length s.
Proof.
  intros H. apply match_at_url in H
    as (sch & body & after & Hsch & Hb & _ & Hs & Hj & _ & _ & ->).
  cbn [endIndex].
  assert (Hlen : length s = j + length (sch ++ body) + length after).
  { rewrite Hs at 1. rewrite !length_app, Hj. lia. }
  assert (0 < length body) by (destruct body; [congruence | simpl; lia]).
  rewrite length_app in *. lia.
Qed.

Lemma match_at_path_bounds (s : jsstring) (j : nat) (m : result) :
  match_at regex_path s j = Some m -> j < endIndex m <= length s.
Proof.
  intros H. apply match_at_path in H
    as (q & c & b & after & _ & _ & _ & Hs & Hj & ->).
  cbn [endIndex].
  assert (Hlen : length s
                 = j + length (q :: (cu "/" :: c :: b) ++ [q]) + length after).
  { rewrite Hs at 1. rewrite length_app, Hj. simpl.
    rewrite !length_app. simpl. lia. }
  simpl in *. lia.
Qed.

(** The loop of [matchAll] ends within the calls [matchAll] allows it, for
    both expressions, and leaves [lastIndex] at 0. *)
Lemma matchAll_url_total (s : jsstring) :
  matchAll_loop (S (length s)) regex_url s 0
  = Some (matchAll regex_url s, 0).
Proof.
  destruct (matchAll_loop_total regex_url s (match_at_url_bounds s)
              (S (length s)) 0) as [ms Hms]; [lia|].
  unfold matchAll. now rewrite Hms.
Qed.

Lemma matchAll_path_total (s : jsstring) :
  matchAll_loop (S (length s)) regex_path s 0
  = Some (matchAll regex_path s, 0).
Proof.
  destruct (matchAll_loop_total regex_path s (match_at_path_bounds s)
              (S (length s)) 0) as [ms Hms]; [lia|].
  unfold matchAll. now rewrite Hms.
Qed.

(** The expression objects are shared by all the scans of a run; each
    scan still starts at 0 and is the scan [matchAll] describes. *)
Lemma scans_url (texts : list jsstring) :
  scans regex_url texts 0 = Some (map (matchAll regex_url) texts, 0).
Proof.
  induction texts as [|t texts IH]; [reflexivity|].
  cbn [scans map]. now rewrite matchAll_url_total, IH.
Qed.

Lemma scans_path (texts : list jsstring) :
  scans regex_path texts 0 = Some (map (matchAll regex_path) texts, 0).
Proof.
  induction texts as [|t texts IH]; [reflexivity|].
  cbn [scans map]. now rewrite matchAll_path_total, IH.
Qed.

(** Every match of a scan with [regex.url]. *)
Lemma matchAll_url_shape (text : jsstring) (m : result) :
  In m (matchAll regex_url text) ->
  exists before sch body after,
    text = before ++ sch ++ body ++ after
    /\ index m = length before
    /\ endIndex m = length before + length (sch ++ body)
    /\ group 1 m = sch ++ body
    /\ is_scheme sch /\ body <> []
    /\ Forall (fun c => stops c = false) body
    /\ terminated after
    /\ (forall b1 b2, body = b1 ++ b2 -> b1 <> [] -> b2 <> [] ->
          ~ terminated (b2 ++ after)).
Proof.
  intros Hm. apply matchAll_in in Hm as (j & _ & Hm).
  apply match_at_url in Hm
    as (sch & body & after & Hsch & Hb & Hns & Hs & Hj & Hterm & Hmin & ->).
  exists (take j text), sch, body, after. rewrite Hj.
  repeat split; auto.
Qed.

(** Every match of a scan with [regex.path]. *)
Lemma matchAll_path_shape (text : jsstring) (m : result) :
  In m (matchAll regex_path text) ->
  exists before q c b after,
    text = before ++ q :: group 2 m ++ q :: after
    /\ index m = length before
    /\ is_quote q
    /\ group 2 m = cu "/" :: c :: b
    /\ class_mem path_first c = true
    /\ Forall (fun d => class_mem path_more d = true) b.
Proof.
  intros Hm. apply matchAll_in in Hm as (j & _ & Hm).
  apply match_at_path in Hm
    as (q & c & b & after & Hq & Hc & Hb & Hs & Hj & ->).
  exists (take j text), q, c, b, after. rewrite Hj.
  repeat split; auto.
Qed.

(** ** URL extraction *)

(** The delimiters, one by one. *)
Lemma stops_cases (c : N) :
  stops c = true ->
  In c [9; 10; 11; 12; 13; 32; 160; 5760; 8192; 8193; 8194; 8195; 8196;
        8197; 8198; 8199; 8200; 8201; 8202; 8232; 8233; 8239; 8287; 12288;
        65279; 44; 39; 34; 124; 40; 41; 60; 62; 91; 93]%N.
Proof.
  unfold stops, class_mem, url_stop, existsb, item_mem, is_space, in_range,
    squote, dquote.
  change (cu ",") with 44%N. change (cu "|") with 124%N.
  change (cu "(") with 40%N. change (cu ")") with 41%N.
  change (cu "<") with 60%N. change (cu ">") with 62%N.
  change (cu "[") with 91%N. change (cu "]") with 93%N.
  rewrite !orb_true_iff, !andb_true_iff, !N.leb_le, !N.eqb_eq.
  unfold In. lia.
Qed.

(** C4, as the code has it.  On the text [http://a.com/xhttp://b.com/y]
    the scan cuts at the second scheme and yields the single match
    [http://a.com/x], never the merged text; the second URL runs to the end
    of the text and is not matched.  When the same text stands between
    double quotes, or is followed by any delimiter, the scan yields the two
    matches [http://a.com/x] and [http://b.com/y].  In every text, a match
    is a scheme [http://] or [https://] followed by the shortest non-empty
    run of characters, none of them a delimiter (white space, a quote, a
    comma, a bar, a parenthesis, an angle or square bracket), after which
    the text continues with a delimiter or with another scheme. *)
Theorem extractUrls_splits_at_scheme :
  extractUrls two_urls = [js "http://a.com/x"]
  /\ extractUrls (quoted two_urls) = [js "http://a.com/x"; js "http://b.com/y"]
  /\ (forall c, stops c = true ->
        extractUrls (two_urls ++ [c])
        = [js "http://a.com/x"; js "http://b.com/y"])
  /\ forall text m, In m (matchAll regex_url text) ->
       exists before sch body after,
         text = before ++ sch ++ body ++ after
         /\ index m = length before
         /\ group 1 m = sch ++ body
         /\ is_scheme sch /\ body <> []
         /\ Forall (fun c => stops c = false) body
         /\ terminated after
         /\ (forall b1 b2, body = b1 ++ b2 -> b1 <> [] -> b2 <> [] ->
               ~ terminated (b2 ++ after)).
Proof.
  split; [vm_compute; reflexivity|]. split; [vm_compute; reflexivity|].
  split.
  - intros c Hc. apply stops_cases in Hc.
    repeat (destruct Hc as [<-|Hc]; [vm_compute; reflexivity|]).
    destruct Hc.
  - intros text m Hm.
    apply matchAll_url_shape in Hm
      as (before & sch & body & after & H1 & H2 & _ & H3 & H4).
    exists before, sch, body, after. auto.
Qed.

Lemma extractUrls_splits_at_scheme_witness :
  extractUrls (two_urls ++ [cu "|"])
  = [js "http://a.com/x"; js "http://b.com/y"]
  /\ exists before sch body after,
    two_urls = before ++ sch ++ body ++ after
    /\ index (Result 0 14 [Some (js "http://a.com/x");
                            Some (js "http://a.com/x")]) = length before
    /\ group 1 (Result 0 14 [Some (js "http://a.com/x");
                              Some (js "http://a.com/x")]) = sch ++ body
    /\ is_scheme sch /\ body <> []
    /\ Forall (fun c => stops c = false) body
    /\ terminated after
    /\ (forall b1 b2, body = b1 ++ b2 -> b1 <> [] -> b2 <> [] ->
          ~ terminated (b2 ++ after)).
Proof.
  split.
  - apply (proj1 (proj2 (proj2 extractUrls_splits_at_scheme)) (cu "|")).
    vm_compute. reflexivity.
  - apply (proj2 (proj2 (proj2 extractUrls_splits_at_scheme)) two_urls).
    vm_compute. left. reflexivity.
Defined.

(** The text of C4 without anything after it does not yield two
    matches. *)
Lemma extractUrls_two_urls_not_two :
  extractUrls two_urls <> [js "http://a.com/x"; js "http://b.com/y"].
Proof. vm_compute. discriminate. Qed.

(** C9.  A match of [regex.url] is always followed in the text by a
    delimiter or by another scheme, so it ends before the end of the text:
    a URL that runs to the end of the text is not matched, as
    [http://a.com/x] alone shows. *)
Theorem extractUrls_needs_terminator :
  (forall text m, In m (matchAll regex_url text) ->
     exists before after,
       text = before ++ group 1 m ++ after
       /\ index m = length before
       /\ endIndex m = length before + length (group 1 m)
       /\ terminated after
       /\ endIndex m < length text)
  /\ extractUrls (js "http://a.com/x") = [].
Proof.
  split; [|vm_compute; reflexivity].
  intros text m Hm.
  apply matchAll_url_shape in Hm
    as (before & sch & body & after & H1 & H2 & H3 & H4 & _ & _ & _ & H5 & _).
  exists before, after. rewrite H4.
  replace (before ++ (sch ++ body) ++ after)
    with (before ++ sch ++ body ++ after) by (now rewrite <- app_assoc).
  repeat split; auto.
  rewrite H3, H1, !length_app.
  assert (0 < length after); [|lia].
  destruct H5 as [(c & t & -> & _) | (s' & t & [-> | ->] & ->)];
    simpl; lia.
Qed.

Lemma extractUrls_needs_terminator_witness :
  exists before after,
    quoted two_urls
    = before ++ group 1 (Result 15 29 [Some (js "http://b.com/y");
                                       Some (js "http://b.com/y")]) ++ after
    /\ index (Result 15 29 [Some (js "http://b.com/y");
                             Some (js "http://b.com/y")]) = length before
    /\ endIndex (Result 15 29 [Some (js "http://b.com/y");
                                Some (js "http://b.com/y")])
       = length before
         + length (group 1 (Result 15 29 [Some (js "http://b.com/y");
                                          Some (js "http://b.com/y")]))
    /\ terminated after
    /\ endIndex (Result 15 29 [Some (js "http://b.com/y");
                                Some (js "http://b.com/y")])
       < length (quoted two_urls).
Proof.
  apply (proj1 extractUrls_needs_terminator (quoted two_urls)).
  vm_compute. right. left. reflexivity.
Defined.

(** ** Path extraction *)

Lemma path_first_plain (c : N) :
  class_mem path_first c = true -> c <> cu "/" /\ ~ is_quote c.
Proof.
  intros H. split; [intros -> | intros [-> | ->]]; vm_compute in H;
    discriminate.
Qed.

Lemma path_more_no_quote (c : N) :
  class_mem path_more c = true -> ~ is_quote c.
Proof. intros H [Hc|Hc]; subst c; vm_compute in H; discriminate. Qed.

(** C6.  A path match stands between two equal quotes: the text
    [/a/b] opened by a double quote and closed by a single quote yields no
    match, the same text between double quotes yields the one match
    [/a/b], and in every text the character before a match is a quote and
    the character after it is the same quote. *)
Theorem extractPaths_same_quote :
  extractPaths (dquote :: js "/a/b" ++ [squote]) = []
  /\ extractPaths (quoted (js "/a/b")) = [js "/a/b"]
  /\ forall text m, In m (matchAll regex_path text) ->
       exists before q after,
         is_quote q
         /\ text = before ++ q :: group 2 m ++ q :: after
         /\ index m = length before.
Proof.
  split; [vm_compute; reflexivity|]. split; [vm_compute; reflexivity|].
  intros text m Hm.
  apply matchAll_path_shape in Hm
    as (before & q & c & b & after & H1 & H2 & H3 & _).
  exists before, q, after. auto.
Qed.

Lemma extractPaths_same_quote_witness :
  exists before q after,
    is_quote q
    /\ quoted (js "/a/b")
       = before ++ q :: group 2 (Result 0 6 [Some (quoted (js "/a/b"));
                                             Some [dquote];
                                             Some (js "/a/b")])
                    ++ q :: after
    /\ index (Result 0 6 [Some (quoted (js "/a/b")); Some [dquote];
                           Some (js "/a/b")]) = length before.
Proof.
  apply (proj2 (proj2 extractPaths_same_quote) (quoted (js "/a/b"))).
  vm_compute. left. reflexivity.
Defined.

(** C10.  Every path that [extractPaths] returns starts with one slash
    followed by a character of the first class, which is not a slash, and
    holds no quote; so no returned path starts with two slashes, and the
    literal [//host/x] between quotes yields nothing. *)
Theorem extractPaths_single_slash :
  (forall text p, In p (extractPaths text) ->
     (exists c more,
        p = cu "/" :: c :: more
        /\ class_mem path_first c = true /\ c <> cu "/")
     /\ ~ (exists t, p = js "//" ++ t)
     /\ Forall (fun d => ~ is_quote d) p)
  /\ extractPaths (quoted (js "//host/x")) = [].
Proof.
  split; [|vm_compute; reflexivity].
  intros text p Hp. unfold extractPaths in Hp.
  apply in_map_iff in Hp as (m & <- & Hm).
  apply matchAll_path_shape in Hm
    as (before & q & c & b & after & _ & _ & _ & -> & Hc & Hb).
  destruct (path_first_plain c Hc) as [Hslash Hquote].
  split; [exists c, b; auto|]. split.
  - intros [t Ht]. apply Hslash. cbn in Ht. now injection Ht.
  - constructor; [intros [Hq|Hq]; vm_compute in Hq; discriminate|].
    constructor; [exact Hquote|].
    eapply Forall_impl; [exact Hb|]. intros d. apply path_more_no_quote.
Qed.

Lemma extractPaths_single_slash_witness :
  (exists c more,
     js "/a/b" = cu "/" :: c :: more
     /\ class_mem path_first c = true /\ c <> cu "/")
  /\ ~ (exists t, js "/a/b" = js "//" ++ t)
  /\ Forall (fun d => ~ is_quote d) (js "/a/b").
Proof.
  apply (proj1 extractPaths_single_slash (quoted (js "/a/b"))).
  vm_compute. left. reflexivity.
Defined.

(** ** Handler computations *)

Section EmitLaws.

Context {A B : Type}.

Lemma run_bind (f : A -> Emit B) (c : Emit A) (seen : gset jsstring) :
  (c ≫= f) seen =
  (value (f (value c seen)) (final c seen),
   final (f (value c seen)) (final c seen),
   emitted c seen ++ emitted (f (value c seen)) (final c seen)).
Proof.
  unfold mbind, Emit_bind, value, final, emitted.
  destruct (c seen) as [[a s1] o1]. simpl.
  now destruct (f a s1) as [[b s2] o2].
Qed.

Lemma emitted_bind (f : A -> Emit B) (c : Emit A) (seen : gset jsstring) :
  emitted (c ≫= f) seen
  = emitted c seen ++ emitted (f (value c seen)) (final c seen).
Proof. unfold emitted at 1. now rewrite run_bind. Qed.

Lemma final_bind (f : A -> Emit B) (c : Emit A) (seen : gset jsstring) :
  final (c ≫= f) seen = final (f (value c seen)) (final c seen).
Proof. unfold final at 1. now rewrite run_bind. Qed.

Lemma value_bind (f : A -> Emit B) (c : Emit A) (seen : gset jsstring) :
  value (c ≫= f) seen = value (f (value c seen)) (final c seen).
Proof. unfold value at 1. now rewrite run_bind. Qed.

End EmitLaws.

Lemma forEach_cons {A} (a : A) (l : list A) (f : A -> Emit unit) :
  forEach (a :: l) f = (f a ;; forEach l f).
Proof. reflexivity. Qed.

Lemma subdomain_findings_app (o1 o2 : list Finding) :
  subdomain_findings (o1 ++ o2)
  = subdomain_findings o1 ++ subdomain_findings o2.
Proof.
  induction o1 as [|[h|u|src p] o1 IH]; simpl; [reflexivity| |assumption..].
  now rewrite IH.
Qed.

Lemma subdomain_findings_In (h : jsstring) (out : list Finding) :
  In h (subdomain_findings out) <-> In (SubdomainFinding h) out.
Proof.
  induction out as [|[h'|u|src p] out IH]; simpl; [tauto| | |].
  - rewrite IH. split; (intros [H|H]; [left; congruence | now right]).
  - rewrite IH. split; [now right | now intros [H|H]].
  - rewrite IH. split; [now right | now intros [H|H]].
Qed.

Section HandlerFacts.

Variable cfg : Config.

Lemma handleURL_run (u : URL) (seen : gset jsstring) :
  handleURL cfg u seen =
  if inScope (domains cfg) (hostname u) then
    if bool_decide (hostname u ∈ seen)
    then (tt, seen, [UrlFinding u])
    else (tt, {[hostname u]} ∪ seen,
          [SubdomainFinding (hostname u); UrlFinding u])
  else (tt, seen, []).
Proof.
  unfold handleURL. destruct (inScope (domains cfg) (hostname u));
    [|reflexivity].
  unfold mbind, Emit_bind, has, add, write, mret, Emit_ret.
  now destruct (bool_decide (hostname u ∈ seen)).
Qed.

Lemma scanPaths_run (u : URL) (text : jsstring) (seen : gset jsstring) :
  scanPaths u text seen = (tt, seen, map (PathFinding u) (extractPaths text)).
Proof.
  unfold scanPaths, extractPaths.
  induction (matchAll regex_path text) as [|m ms IH]; [reflexivity|].
  rewrite forEach_cons, run_bind.
  unfold value, final, emitted in *. simpl. now rewrite IH.
Qed.

(** *** Findings are written for hosts in scope *)

Lemma handleURL_scoped (u : URL) (seen : gset jsstring) :
  Forall (scoped (domains cfg)) (emitted (handleURL cfg u) seen).
Proof.
  unfold emitted. rewrite handleURL_run.
  destruct (inScope (domains cfg) (hostname u)) eqn:Hs; [|constructor].
  destruct (bool_decide (hostname u ∈ seen)); simpl;
    repeat constructor; exact Hs.
Qed.

Lemma forEach_Forall {A} (P : Finding -> Prop) (g : A -> Emit unit)
    (l : list A) :
  (forall a seen, In a l -> Forall P (emitted (g a) seen)) ->
  forall seen, Forall P (emitted (forEach l g) seen).
Proof.
  induction l as [|a l IH]; intros Hg seen; [constructor|].
  rewrite forEach_cons, emitted_bind. apply Forall_app. split.
  - apply Hg. now left.
  - apply IH. intros a' seen' Ha. apply Hg. now right.
Qed.

Lemma scanURLs_scoped (text : jsstring) (seen : gset jsstring) :
  Forall (scoped (domains cfg)) (emitted (scanURLs cfg text) seen).
Proof.
  apply forEach_Forall. intros m seen' _. unfold handleMatch.
  destruct (parseURL cfg (group 1 m)); [apply handleURL_scoped | constructor].
Qed.

Lemma on_response_head_run (resp : Response) (seen : gset jsstring) :
  on_response_head cfg resp seen =
  match parseURL cfg (url resp) with
  | None => (None, seen, [])
  | Some u =>
      let s1 := final (handleURL cfg u) seen in
      (if skipsBody (extensions cfg) (extname cfg (pathname u))
       then None else Some u,
       final (scanURLs cfg (headers resp)) s1,
       emitted (handleURL cfg u) seen
       ++ emitted (scanURLs cfg (headers resp)) s1)
  end.
Proof.
  unfold on_response_head. destruct (parseURL cfg (url resp)) as [u|];
    [|reflexivity].
  rewrite run_bind, value_bind, final_bind, emitted_bind.
  destruct (skipsBody _ _); unfold value, final, emitted, mret, Emit_ret;
    simpl; now rewrite app_nil_r.
Qed.

Lemma on_response_tail_run (u : URL) (body : option jsstring)
    (seen : gset jsstring) :
  on_response_tail cfg u body seen =
  match body with
  | None => (tt, seen, [])
  | Some t =>
      (tt, final (scanURLs cfg t) seen,
       emitted (scanURLs cfg t) seen ++ map (PathFinding u) (extractPaths t))
  end.
Proof.
  unfold on_response_tail. destruct body as [t|]; [|reflexivity].
  rewrite run_bind. unfold value, final, emitted.
  now rewrite !scanPaths_run.
Qed.

(** What one response writes, from its event to its end. *)
Lemma handleResponse_emitted (resp : Response) (seen : gset jsstring)
    (u : URL) :
  parseURL cfg (url resp) = Some u ->
  let s1 := final (handleURL cfg u) seen in
  let s2 := final (scanURLs cfg (headers resp)) s1 in
  emitted (handleResponse cfg resp) seen =
  emitted (handleURL cfg u) seen
  ++ emitted (scanURLs cfg (headers resp)) s1
  ++ match (if skipsBody (extensions cfg) (extname cfg (pathname u))
            then None else text resp) with
     | None => []
     | Some t =>
         emitted (scanURLs cfg t) s2 ++ map (PathFinding u) (extractPaths t)
     end.
Proof.
  intros Hu s1 s2. unfold handleResponse. rewrite emitted_bind.
  unfold value at 1, final at 1, emitted at 1 2.
  rewrite on_response_head_run, Hu. cbn [fst snd].
  fold s1. fold s2. rewrite <- app_assoc. do 2 f_equal.
  destruct (skipsBody _ _); [reflexivity|].
  rewrite on_response_tail_run. now destruct (text resp).
Qed.

(** *** The response handler *)

Lemma handleURL_about (u : URL) (seen : gset jsstring) :
  Forall (about u) (emitted (handleURL cfg u) seen).
Proof.
  unfold emitted. rewrite handleURL_run.
  destruct (inScope (domains cfg) (hostname u)); [|constructor].
  destruct (bool_decide (hostname u ∈ seen)); simpl;
    repeat (constructor; [unfold about; auto|]); constructor.
Qed.

Lemma scanURLs_found_in (text : jsstring) (seen : gset jsstring) :
  Forall (found_in cfg text) (emitted (scanURLs cfg text) seen).
Proof.
  apply forEach_Forall. intros m seen' Hm. unfold handleMatch.
  destruct (parseURL cfg (group 1 m)) as [v|] eqn:Hv; [|constructor].
  eapply Forall_impl; [apply handleURL_about|].
  intros f Hf. exists (group 1 m), v. split; [|now split].
  unfold extractUrls. now apply in_map.
Qed.

(** C1, as the code has it.  Every subdomain finding and every URL
    finding that the handler writes for a response is for a host name in
    scope.  A path finding is written for every path matched in a body that
    is read, with the URL of the response as its source, whether or not the
    host of that URL is in scope. *)
Theorem findings_scope (resp : Response) (seen : gset jsstring) :
  (forall f, In f (emitted (handleResponse cfg resp) seen) ->
     match f with
     | SubdomainFinding h => inScope (domains cfg) h = true
     | UrlFinding u => inScope (domains cfg) (hostname u) = true
     | PathFinding source p =>
         parseURL cfg (url resp) = Some source
         /\ exists body, text resp = Some body /\ In p (extractPaths body)
     end)
  /\ (forall u body p,
        parseURL cfg (url resp) = Some u ->
        skipsBody (extensions cfg) (extname cfg (pathname u)) = false ->
        text resp = Some body -> In p (extractPaths body) ->
        In (PathFinding u p) (emitted (handleResponse cfg resp) seen)).
Proof.
  split.
  - intros f Hf.
    destruct (parseURL cfg (url resp)) as [u|] eqn:Hu.
    + rewrite (handleResponse_emitted resp seen u Hu) in Hf.
      cbv zeta in Hf.
      apply in_app_or in Hf as [Hf|Hf];
        [|apply in_app_or in Hf as [Hf|Hf]].
      * pose proof (handleURL_scoped u seen) as Hs.
        rewrite List.Forall_forall in Hs. apply Hs in Hf.
        destruct f; [exact Hf | exact Hf | destruct Hf].
      * pose proof (scanURLs_scoped (headers resp)
                      (final (handleURL cfg u) seen)) as Hs.
        rewrite List.Forall_forall in Hs. apply Hs in Hf.
        destruct f; [exact Hf | exact Hf | destruct Hf].
      * destruct (skipsBody _ _); [destruct Hf|].
        destruct (text resp) as [body|] eqn:Hb; [|destruct Hf].
        apply in_app_or in Hf as [Hf|Hf].
        -- pose proof (scanURLs_scoped body
                         (final (scanURLs cfg (headers resp))
                            (final (handleURL cfg u) seen))) as Hs.
           rewrite List.Forall_forall in Hs. apply Hs in Hf.
           destruct f; [exact Hf | exact Hf | destruct Hf].
        -- apply in_map_iff in Hf as (p & <- & Hp). eauto.
    + unfold handleResponse in Hf. rewrite emitted_bind in Hf.
      unfold value, final, emitted in Hf.
      rewrite on_response_head_run, Hu in Hf. destruct Hf.
  - intros u body p Hu Hskip Hb Hp.
    rewrite (handleResponse_emitted resp seen u Hu). cbv zeta.
    rewrite Hskip, Hb. apply in_or_app. right. apply in_or_app. right.
    apply in_or_app. right. now apply in_map.
Qed.

(** *** What [handleURL] and the scan of a text do write *)

Lemma handleURL_writes (u : URL) (seen : gset jsstring) :
  inScope (domains cfg) (hostname u) = true ->
  In (UrlFinding u) (emitted (handleURL cfg u) seen)
  /\ (hostname u ∉ seen ->
      In (SubdomainFinding (hostname u)) (emitted (handleURL cfg u) seen)).
Proof.
  intros Hs. unfold emitted. rewrite handleURL_run, Hs.
  destruct (bool_decide_reflect (hostname u ∈ seen)) as [Hin|Hnew]; simpl.
  - split; [now left | now intros Hn].
  - split; [right; now left | intros _; now left].
Qed.

Lemma handleURL_added (u : URL) (seen : gset jsstring) (h : jsstring) :
  h ∈ final (handleURL cfg u) seen ->
  h ∈ seen \/ In (SubdomainFinding h) (emitted (handleURL cfg u) seen).
Proof.
  unfold final, emitted. rewrite handleURL_run.
  destruct (inScope (domains cfg) (hostname u)); [|now left].
  destruct (bool_decide (hostname u ∈ seen)); simpl; [now left|].
  rewrite elem_of_union, elem_of_singleton.
  intros [->|Hh]; [right; now left | now left].
Qed.

Lemma handleMatch_added (m : result) (seen : gset jsstring) (h : jsstring) :
  h ∈ final (handleMatch cfg m) seen ->
  h ∈ seen \/ In (SubdomainFinding h) (emitted (handleMatch cfg m) seen).
Proof.
  unfold handleMatch. destruct (parseURL cfg (group 1 m)) as [v|];
    [apply handleURL_added | now left].
Qed.

Lemma forEach_handleMatch_writes (ms : list result) (seen : gset jsstring)
    (m : result) (v : URL) :
  In m ms -> parseURL cfg (group 1 m) = Some v ->
  inScope (domains cfg) (hostname v) = true ->
  In (UrlFinding v) (emitted (forEach ms (handleMatch cfg)) seen)
  /\ (hostname v ∉ seen ->
      In (SubdomainFinding (hostname v))
        (emitted (forEach ms (handleMatch cfg)) seen)).
Proof.
  intros Hm Hv Hs. revert seen.
  induction ms as [|m0 ms IH]; intros seen; [destruct Hm|].
  rewrite forEach_cons, emitted_bind.
  destruct Hm as [->|Hm].
  - assert (He : handleMatch cfg m = handleURL cfg v)
      by (unfold handleMatch; now rewrite Hv).
    rewrite He.
    destruct (handleURL_writes v seen Hs) as [Hurl Hsub].
    split; [|intros Hnew]; apply in_or_app; left; auto.
  - destruct (IH Hm (final (handleMatch cfg m0) seen)) as [Hurl Hsub].
    split; [apply in_or_app; now right|].
    intros Hnew. apply in_or_app.
    destruct (decide (hostname v ∈ final (handleMatch cfg m0) seen))
      as [Hin|Hout].
    + apply handleMatch_added in Hin as [Hin|Hin]; [now destruct Hnew|].
      now left.
    + right. now apply Hsub.
Qed.

Lemma scanURLs_writes (t : jsstring) (seen : gset jsstring)
    (raw : jsstring) (v : URL) :
  In raw (extractUrls t) -> parseURL cfg raw = Some v ->
  inScope (domains cfg) (hostname v) = true ->
  In (UrlFinding v) (emitted (scanURLs cfg t) seen)
  /\ (hostname v ∉ seen ->
      In (SubdomainFinding (hostname v)) (emitted (scanURLs cfg t) seen)).
Proof.
  unfold extractUrls, scanURLs. intros Hraw Hv Hs.
  apply in_map_iff in Hraw as (m & <- & Hm).
  now apply (forEach_handleMatch_writes _ seen m v).
Qed.

(** C5.  The body is asked for only when the extension of the URL path
    is empty, or the list of extensions is empty, or the extension is in
    the list.  When the handler returns at the extension test, it has not
    asked for the body, and what it has written is what [handleURL] wrote
    for the response's own URL followed by what the scan of the headers
    wrote.  These findings are written: the URL finding of the response's
    own URL when its host name is in scope, with the subdomain finding of
    that host name when it was not in [uniqueDomains]; and likewise the
    URL finding and the subdomain finding of every URL matched in the
    headers that parses and is in scope.  Nothing comes from the body: no
    path finding is written, every finding written is about the own URL
    or a URL of the headers, and the handler does the same whatever the
    body is. *)
Theorem body_scan_short_circuit (resp : Response) (seen : gset jsstring)
    (u : URL) :
  parseURL cfg (url resp) = Some u ->
  (value (on_response_head cfg resp) seen = Some u ->
     extname cfg (pathname u) = [] \/ extensions cfg = []
     \/ In (extname cfg (pathname u)) (extensions cfg))
  /\ (skipsBody (extensions cfg) (extname cfg (pathname u)) = true ->
        value (on_response_head cfg resp) seen = None
        /\ emitted (handleResponse cfg resp) seen
           = emitted (handleURL cfg u) seen
             ++ emitted (scanURLs cfg (headers resp))
                  (final (handleURL cfg u) seen)
        /\ (inScope (domains cfg) (hostname u) = true ->
              In (UrlFinding u) (emitted (handleResponse cfg resp) seen)
              /\ (hostname u ∉ seen ->
                  In (SubdomainFinding (hostname u))
                    (emitted (handleResponse cfg resp) seen)))
        /\ (forall raw v,
              In raw (extractUrls (headers resp)) ->
              parseURL cfg raw = Some v ->
              inScope (domains cfg) (hostname v) = true ->
              In (UrlFinding v) (emitted (handleResponse cfg resp) seen)
              /\ (hostname v ∉ seen ->
                  In (SubdomainFinding (hostname v))
                    (emitted (handleResponse cfg resp) seen)))
        /\ (forall f, In f (emitted (handleResponse cfg resp) seen) ->
              (about u f \/ found_in cfg (headers resp) f)
              /\ forall source p, f <> PathFinding source p)
        /\ (forall body,
              handleResponse cfg (mkResponse (url resp) (headers resp) body)
                seen
              = handleResponse cfg resp seen)).
Proof.
  intros Hu. split.
  - unfold value. rewrite on_response_head_run, Hu. cbn [fst].
    unfold skipsBody.
    destruct (bool_decide_reflect (extname cfg (pathname u) = []))
      as [He|He]; [now left|].
    destruct (existsb _ (extensions cfg)) eqn:Hin; [|discriminate].
    intros _. right. right.
    apply existsb_exists in Hin as (e & He' & Heq).
    apply streq_spec in Heq. now subst e.
  - intros Hskip.
    assert (Heq : emitted (handleResponse cfg resp) seen
                  = emitted (handleURL cfg u) seen
                    ++ emitted (scanURLs cfg (headers resp))
                         (final (handleURL cfg u) seen)).
    { rewrite (handleResponse_emitted resp seen u Hu). cbv zeta.
      rewrite Hskip. now rewrite app_nil_r. }
    split; [|split; [exact Heq|]].
    { unfold value. now rewrite on_response_head_run, Hu, Hskip. }
    rewrite Heq. split; [|split; [|split]].
    + intros Hs. destruct (handleURL_writes u seen Hs) as [Hurl Hsub].
      split; [|intros Hnew]; apply in_or_app; left; auto.
    + intros raw v Hraw Hv Hs.
      destruct (scanURLs_writes (headers resp)
                  (final (handleURL cfg u) seen) raw v Hraw Hv Hs)
        as [Hurl Hsub].
      split; [apply in_or_app; now right|].
      intros Hnew. apply in_or_app.
      destruct (decide (hostname v ∈ final (handleURL cfg u) seen))
        as [Hin|Hout].
      * apply handleURL_added in Hin as [Hin|Hin]; [now destruct Hnew|].
        now left.
      * right. now apply Hsub.
    + intros f Hf.
      assert (Hfrom : about u f \/ found_in cfg (headers resp) f).
      { apply in_app_or in Hf as [Hf|Hf].
        - left. pose proof (handleURL_about u seen) as Ha.
          rewrite List.Forall_forall in Ha. now apply Ha.
        - right.
          pose proof (scanURLs_found_in (headers resp)
                        (final (handleURL cfg u) seen)) as Ha.
          rewrite List.Forall_forall in Ha. now apply Ha. }
      split; [exact Hfrom|].
      intros source p ->.
      destruct Hfrom as [[H|H] | (raw & v & _ & _ & [H|H])]; discriminate.
    + intros body. unfold handleResponse. rewrite !run_bind.
      unfold value, final, emitted. rewrite !on_response_head_run.
      cbn [url headers text]. rewrite Hu, Hskip. reflexivity.
Qed.

(** The extension test, exactly: the body is asked for when the extension
    is empty or in the list, and only then. *)
Lemma body_asked_iff (resp : Response) (seen : gset jsstring) (u : URL) :
  parseURL cfg (url resp) = Some u ->
  value (on_response_head cfg resp) seen = Some u
  <-> extname cfg (pathname u) = []
      \/ In (extname cfg (pathname u)) (extensions cfg).
Proof.
  intros Hu. unfold value. rewrite on_response_head_run, Hu. cbn [fst].
  unfold skipsBody.
  destruct (bool_decide_reflect (extname cfg (pathname u) = [])) as [He|He].
  { simpl. split; auto. }
  destruct (existsb _ (extensions cfg)) eqn:Hin; simpl.
  - split; [|reflexivity]. intros _. right.
    apply existsb_exists in Hin as (e & He' & Heq).
    apply streq_spec in Heq. now subst e.
  - split; [discriminate|]. intros [H|H]; [contradiction|].
    assert (existsb (streq (extname cfg (pathname u))) (extensions cfg)
            = true); [|congruence].
    apply existsb_exists. exists (extname cfg (pathname u)).
    split; [exact H | now apply streq_spec].
Qed.

Lemma final_forEach_app {A} (g : A -> Emit unit) (l1 l2 : list A)
    (seen : gset jsstring) :
  final (forEach (l1 ++ l2) g) seen
  = final (forEach l2 g) (final (forEach l1 g) seen).
Proof.
  revert seen. induction l1 as [|a l1 IH]; intros seen; [reflexivity|].
  simpl app. rewrite !forEach_cons, !final_bind. apply IH.
Qed.

Lemma emitted_forEach_app {A} (g : A -> Emit unit) (l1 l2 : list A)
    (seen : gset jsstring) :
  emitted (forEach (l1 ++ l2) g) seen
  = emitted (forEach l1 g) seen
    ++ emitted (forEach l2 g) (final (forEach l1 g) seen).
Proof.
  revert seen. induction l1 as [|a l1 IH]; intros seen; [reflexivity|].
  simpl app. rewrite !forEach_cons, !emitted_bind, !final_bind, IH.
  now rewrite app_assoc.
Qed.

(** The handler of one response is its two turns, one after the
    other. *)
Lemma handleResponse_turns (resp : Response) (seen : gset jsstring) :
  handleResponse cfg resp seen
  = forEach (Arrives resp
             :: match value (on_response_head cfg resp) seen with
                | Some u => [Settles u (text resp)]
                | None => []
                end) (take_turn cfg) seen.
Proof.
  assert (Hf : final (take_turn cfg (Arrives resp)) seen
               = final (on_response_head cfg resp) seen)
    by (cbn [take_turn]; now rewrite final_bind).
  assert (He : emitted (take_turn cfg (Arrives resp)) seen
               = emitted (on_response_head cfg resp) seen).
  { cbn [take_turn]. rewrite emitted_bind. unfold emitted at 3.
    simpl. now rewrite app_nil_r. }
  unfold handleResponse. rewrite forEach_cons, !run_bind, Hf, He.
  destruct (value (on_response_head cfg resp) seen) as [u|];
    [|reflexivity].
  rewrite forEach_cons, value_bind, final_bind, emitted_bind.
  cbn [take_turn forEach]. unfold value, final, emitted, mret, Emit_ret.
  cbn [fst snd]. rewrite app_nil_r.
  now destruct (on_response_tail cfg u (text resp) _) as [[[] s] o].
Qed.

(** C7.  When the URL of a response does not parse, the handler returns
    at once: it writes nothing, leaves [uniqueDomains] as it was and does
    not ask for the body; and the run goes on as if the response had not
    come, whatever was handled before it and whatever comes after. *)
Theorem unparsable_response_skipped (resp : Response)
    (seen : gset jsstring) :
  parseURL cfg (url resp) = None ->
  handleResponse cfg resp seen = (tt, seen, [])
  /\ value (on_response_head cfg resp) seen = None
  /\ forall before after,
       run cfg (before ++ Arrives resp :: after) = run cfg (before ++ after).
Proof.
  intros Hu.
  assert (Hhead : forall s, on_response_head cfg resp s = (None, s, []))
    by (intros s; now rewrite on_response_head_run, Hu).
  split; [|split].
  - unfold handleResponse. rewrite run_bind.
    unfold value, final, emitted. now rewrite !Hhead.
  - unfold value. now rewrite Hhead.
  - intros before after. unfold run.
    rewrite !final_forEach_app, !emitted_forEach_app.
    rewrite !forEach_cons, final_bind, emitted_bind.
    assert (Hturn : forall s, take_turn cfg (Arrives resp) s = (tt, s, [])).
    { intros s. unfold take_turn. rewrite run_bind.
      unfold value, final, emitted. now rewrite !Hhead. }
    assert (Hf : forall s, final (take_turn cfg (Arrives resp)) s = s)
      by (intros s; unfold final; now rewrite Hturn).
    assert (He : forall s, emitted (take_turn cfg (Arrives resp)) s = [])
      by (intros s; unfold emitted; now rewrite Hturn).
    now rewrite !Hf, !He.
Qed.

(** C8.  What the handler writes for one response is, in this order:
    the findings of the response's own URL, the findings of the URLs
    matched in the headers, the findings of the URLs matched in the body,
    and the path findings of the body; the last two are empty when the body
    is not read. *)
Theorem emission_order (resp : Response) (seen : gset jsstring) (u : URL) :
  parseURL cfg (url resp) = Some u ->
  let s1 := final (handleURL cfg u) seen in
  let s2 := final (scanURLs cfg (headers resp)) s1 in
  let read := if skipsBody (extensions cfg) (extname cfg (pathname u))
              then None else text resp in
  let own := emitted (handleURL cfg u) seen in
  let from_headers := emitted (scanURLs cfg (headers resp)) s1 in
  let from_body :=
    match read with Some t => emitted (scanURLs cfg t) s2 | None => [] end in
  let path_findings :=
    match read with
    | Some t => map (PathFinding u) (extractPaths t)
    | None => []
    end in
  emitted (handleResponse cfg resp) seen
  = own ++ from_headers ++ from_body ++ path_findings
  /\ Forall (about u) own
  /\ Forall (found_in cfg (headers resp)) from_headers
  /\ (forall f, In f from_body ->
        exists t, read = Some t /\ found_in cfg t f).
Proof.
  intros Hu s1 s2 read own from_headers from_body path_findings.
  split; [|split; [|split]].
  - rewrite (handleResponse_emitted resp seen u Hu). cbv zeta.
    fold s1 s2 read. subst own from_headers from_body path_findings.
    now destruct read.
  - apply handleURL_about.
  - apply scanURLs_found_in.
  - intros f Hf. subst from_body. destruct read as [t|]; [|destruct Hf].
    exists t. split; [reflexivity|].
    pose proof (scanURLs_found_in t s2) as Hs.
    rewrite List.Forall_forall in Hs. now apply Hs.
Qed.

(** *** Subdomains are written once *)

Lemma dedup_inv_other (seen : gset jsstring) (out : list Finding)
    (f : Finding) :
  (forall h, f <> SubdomainFinding h) ->
  dedup_inv seen out -> dedup_inv seen (out ++ [f]).
Proof.
  intros Hf [Hmem Hnd]. split.
  - intros h. rewrite Hmem, in_app_iff. simpl. split; [auto|].
    intros [H|[H|[]]]; [exact H | now destruct (Hf h)].
  - rewrite subdomain_findings_app.
    destruct f; simpl; rewrite ?app_nil_r; auto. now destruct (Hf host).
Qed.

Lemma dedup_inv_new (seen : gset jsstring) (out : list Finding)
    (h : jsstring) :
  h ∉ seen ->
  dedup_inv seen out ->
  dedup_inv ({[h]} ∪ seen) (out ++ [SubdomainFinding h]).
Proof.
  intros Hnew [Hmem Hnd]. split.
  - intros h'. rewrite elem_of_union, elem_of_singleton, Hmem, in_app_iff.
    simpl. split.
    + intros [->|H]; auto.
    + intros [H|[H|[]]]; [now right | left; congruence].
  - rewrite subdomain_findings_app. simpl. apply NoDup_app.
    split; [exact Hnd|]. split; [|apply NoDup_singleton].
    intros h' Hh' Hin. apply list_elem_of_singleton in Hin as ->.
    apply Hnew, Hmem, subdomain_findings_In. now apply list_elem_of_In.
Qed.

Lemma keeps_dedup_ret {A} (a : A) : keeps_dedup (mret a).
Proof. intros seen out H. unfold final, emitted. simpl.
       now rewrite app_nil_r. Qed.

Lemma keeps_dedup_bind {A B} (c : Emit A) (f : A -> Emit B) :
  keeps_dedup c -> (forall a, keeps_dedup (f a)) -> keeps_dedup (c ≫= f).
Proof.
  intros Hc Hf seen out H. rewrite final_bind, emitted_bind, app_assoc.
  now apply Hf, Hc.
Qed.

Lemma keeps_dedup_forEach {A} (g : A -> Emit unit) (l : list A) :
  (forall a, keeps_dedup (g a)) -> keeps_dedup (forEach l g).
Proof.
  intros Hg. induction l as [|a l IH]; [apply keeps_dedup_ret|].
  rewrite forEach_cons. apply keeps_dedup_bind; auto.
Qed.

Lemma keeps_dedup_handleURL (u : URL) : keeps_dedup (handleURL cfg u).
Proof.
  intros seen out H. unfold final, emitted. rewrite handleURL_run.
  destruct (inScope (domains cfg) (hostname u)); simpl;
    [|now rewrite app_nil_r].
  destruct (bool_decide_reflect (hostname u ∈ seen)) as [Hin|Hnew]; simpl.
  - now apply dedup_inv_other.
  - change [SubdomainFinding (hostname u); UrlFinding u]
      with ([SubdomainFinding (hostname u)] ++ [UrlFinding u]).
    rewrite app_assoc. apply dedup_inv_other; [discriminate|].
    now apply dedup_inv_new.
Qed.

Lemma keeps_dedup_scanURLs (t : jsstring) : keeps_dedup (scanURLs cfg t).
Proof.
  apply keeps_dedup_forEach. intros m. unfold handleMatch.
  destruct (parseURL cfg (group 1 m));
    [apply keeps_dedup_handleURL | apply keeps_dedup_ret].
Qed.

Lemma keeps_dedup_scanPaths (u : URL) (t : jsstring) :
  keeps_dedup (scanPaths u t).
Proof.
  apply keeps_dedup_forEach. intros m seen out H.
  now apply dedup_inv_other.
Qed.

Lemma keeps_dedup_turn (t : turn) : keeps_dedup (take_turn cfg t).
Proof.
  destruct t as [resp|u [body|]]; simpl.
  - apply keeps_dedup_bind; [|intros; apply keeps_dedup_ret].
    unfold on_response_head. destruct (parseURL cfg (url resp)) as [u|];
      [|apply keeps_dedup_ret].
    apply keeps_dedup_bind; [apply keeps_dedup_handleURL|]. intros _.
    apply keeps_dedup_bind; [apply keeps_dedup_scanURLs|]. intros _.
    destruct (skipsBody _ _); apply keeps_dedup_ret.
  - apply keeps_dedup_bind; [apply keeps_dedup_scanURLs|]. intros _.
    apply keeps_dedup_scanPaths.
  - apply keeps_dedup_ret.
Qed.

Lemma run_dedup (ts : list turn) : dedup_inv (run cfg ts).1 (run cfg ts).2.
Proof.
  unfold run. cbn [fst snd].
  apply (keeps_dedup_forEach (take_turn cfg) ts keeps_dedup_turn ∅ []).
  split; [|constructor]. intros h. split; [|intros []].
  intros H. now apply not_elem_of_empty in H.
Qed.

(** C3.  In every run, whatever the order of its turns, no host name is
    written twice as a subdomain finding, and a host name is in
    [uniqueDomains] exactly when its subdomain finding has been written;
    one call of [handleURL] adds a host name exactly when it writes its
    subdomain finding.  Two URLs of one host name in scope that has not
    been seen, handled one after the other, give one subdomain finding and
    two URL findings. *)
Theorem subdomain_written_once :
  (forall ts, NoDup (subdomain_findings (run cfg ts).2))
  /\ (forall ts h,
        h ∈ (run cfg ts).1 <-> In (SubdomainFinding h) (run cfg ts).2)
  /\ (forall u seen h,
        h ∈ final (handleURL cfg u) seen
        <-> h ∈ seen
            \/ In (SubdomainFinding h) (emitted (handleURL cfg u) seen))
  /\ (forall u1 u2 seen,
        hostname u1 = hostname u2 ->
        inScope (domains cfg) (hostname u1) = true ->
        hostname u1 ∉ seen ->
        emitted (handleURL cfg u1 ;; handleURL cfg u2) seen
        = [SubdomainFinding (hostname u1); UrlFinding u1; UrlFinding u2]).
Proof.
  split; [|split; [|split]].
  - intros ts. apply run_dedup.
  - intros ts. apply run_dedup.
  - intros u seen h. unfold final, emitted. rewrite handleURL_run.
    destruct (inScope (domains cfg) (hostname u)); simpl; [|tauto].
    destruct (bool_decide_reflect (hostname u ∈ seen)) as [Hin|Hnew]; simpl.
    + split; [auto|]. intros [H|[H|[]]]; [exact H | discriminate].
    + rewrite elem_of_union, elem_of_singleton. split.
      * intros [->|H]; auto.
      * intros [H|[H|[H|[]]]]; [now right | left; congruence | discriminate].
  - intros u1 u2 seen Hsame Hscope Hnew.
    rewrite emitted_bind. unfold final, emitted.
    rewrite !handleURL_run, <- Hsame, Hscope.
    rewrite (bool_decide_eq_false_2 _ Hnew). cbn [fst snd].
    rewrite bool_decide_eq_true_2; [reflexivity|].
    apply elem_of_union_l. now apply elem_of_singleton.
Qed.

End HandlerFacts.

(** ** The handler on concrete responses *)

Lemma findings_scope_witness :
  inScope (domains example_cfg) (js "cdn.example.com") = true
  /\ In (PathFinding other_script (js "/api/v1/users"))
       (emitted (handleResponse example_cfg foreign_script) ∅).
Proof.
  split.
  - apply (proj1 (findings_scope example_cfg page ∅)
             (SubdomainFinding (js "cdn.example.com"))).
    vm_compute. do 2 right. left. reflexivity.
  - apply (proj2 (findings_scope example_cfg foreign_script ∅) other_script
             (js "fetch(" ++ quoted (js "/api/v1/users") ++ js ")")).
    + vm_compute. reflexivity.
    + vm_compute. reflexivity.
    + reflexivity.
    + vm_compute. left. reflexivity.
Defined.

(** A script of a host out of scope has its path literals written: the
    path finding of [foreign_script] is about [cdn.other.net]. *)
Lemma path_finding_out_of_scope :
  ~ (forall f,
       In f (emitted (handleResponse example_cfg foreign_script) ∅) ->
       inScope (domains example_cfg) (host_of f) = true).
Proof.
  intros H.
  specialize (H (PathFinding other_script (js "/api/v1/users"))).
  assert (Hin : In (PathFinding other_script (js "/api/v1/users"))
                  (emitted (handleResponse example_cfg foreign_script) ∅))
    by (vm_compute; left; reflexivity).
  apply H in Hin. vm_compute in Hin. discriminate.
Qed.

Lemma subdomain_written_once_witness :
  emitted (handleURL example_cfg app_page ;; handleURL example_cfg app_logo) ∅
  = [SubdomainFinding (js "app.example.com"); UrlFinding app_page;
     UrlFinding app_logo].
Proof.
  apply (proj2 (proj2 (proj2 (subdomain_written_once example_cfg)))
           app_page app_logo ∅).
  - reflexivity.
  - vm_compute. reflexivity.
  - apply not_elem_of_empty.
Defined.

Lemma body_scan_short_circuit_witness :
  value (on_response_head example_cfg image) ∅ = None
  /\ In (UrlFinding app_logo) (emitted (handleResponse example_cfg image) ∅)
  /\ In (SubdomainFinding (js "app.example.com"))
       (emitted (handleResponse example_cfg image) ∅)
  /\ In (UrlFinding cdn_script)
       (emitted (handleResponse example_cfg image) ∅)
  /\ In (SubdomainFinding (js "cdn.example.com"))
       (emitted (handleResponse example_cfg image) ∅)
  /\ handleResponse example_cfg
       (mkResponse (url image) (headers image) None) ∅
     = handleResponse example_cfg image ∅.
Proof.
  destruct (body_scan_short_circuit example_cfg image ∅ app_logo) as [_ H].
  - vm_compute. reflexivity.
  - destruct H as (Hv & _ & Hown & Hhdr & _ & Hbody);
      [vm_compute; reflexivity|].
    destruct Hown as [Hurl Hsub]; [vm_compute; reflexivity|].
    destruct (Hhdr (js "https://cdn.example.com/a.js") cdn_script)
      as [Hurl' Hsub'];
      [vm_compute; left; reflexivity | vm_compute; reflexivity
       | vm_compute; reflexivity |].
    split; [exact Hv|]. split; [exact Hurl|].
    split; [apply Hsub, not_elem_of_empty|]. split; [exact Hurl'|].
    split; [apply Hsub', not_elem_of_empty | apply Hbody].
Defined.

(** The image of the extension example: with the list [.js], the body of
    [logo.png] is not read; its own URL and the URL of its headers are
    written, the URL and the path of its body are not. *)
Example image_findings :
  emitted (handleResponse example_cfg image) ∅
  = [SubdomainFinding (js "app.example.com"); UrlFinding app_logo;
     SubdomainFinding (js "cdn.example.com"); UrlFinding cdn_script].
Proof. vm_compute. reflexivity. Qed.

Lemma unparsable_response_skipped_witness :
  handleResponse example_cfg unparsable ∅ = (tt, ∅, [])
  /\ value (on_response_head example_cfg unparsable) ∅ = None
  /\ forall before after,
       run example_cfg (before ++ Arrives unparsable :: after)
       = run example_cfg (before ++ after).
Proof.
  apply (unparsable_response_skipped example_cfg unparsable ∅).
  vm_compute. reflexivity.
Defined.

Lemma emission_order_witness :
  emitted (handleResponse example_cfg page) ∅
  = [SubdomainFinding (js "app.example.com"); UrlFinding app_page]
    ++ []
    ++ [SubdomainFinding (js "cdn.example.com"); UrlFinding cdn_script]
    ++ [PathFinding app_page (js "/api/v1/users")].
Proof.
  destruct (emission_order example_cfg page ∅ app_page) as [H _].
  - vm_compute. reflexivity.
  - rewrite H. vm_compute. reflexivity.
Defined.

(** The lines of the end-to-end scenario, stream by stream. *)
Example page_lines :
  map written (emitted (handleResponse example_cfg page) ∅)
  = [(subdomains, js "app.example.com" ++ [10%N]);
     (urls, js "https://app.example.com/page" ++ [10%N]);
     (subdomains, js "cdn.example.com" ++ [10%N]);
     (urls, js "https://cdn.example.com/a.js" ++ [10%N]);
     (paths, js "https://app.example.com/page -> /api/v1/users" ++ [10%N])].
Proof. vm_compute. reflexivity. Qed.

(** * Further properties *)

(** ** What a response puts on each stream *)

Lemma url_findings_app (o1 o2 : list Finding) :
  url_findings (o1 ++ o2) = url_findings o1 ++ url_findings o2.
Proof.
  induction o1 as [|[h|u|src p] o1 IH]; simpl; [reflexivity| | |];
    now rewrite ?IH.
Qed.

Lemma path_findings_app (o1 o2 : list Finding) :
  path_findings (o1 ++ o2) = path_findings o1 ++ path_findings o2.
Proof.
  induction o1 as [|[h|u|src p] o1 IH]; simpl; [reflexivity| | |];
    now rewrite ?IH.
Qed.

Lemma fresh_app (seen : gset jsstring) (l1 l2 : list jsstring) :
  fresh seen (l1 ++ l2)
  = fresh seen l1 ++ fresh (seen ∪ list_to_set l1) l2.
Proof.
  revert seen. induction l1 as [|h l1 IH]; intros seen; simpl.
  - f_equal. set_solver.
  - destruct (bool_decide_reflect (h ∈ seen)) as [Hin|Hnew].
    + rewrite IH. do 2 f_equal. set_solver.
    + simpl. rewrite IH. do 3 f_equal. set_solver.
Qed.

Section Streams.

Variable cfg : Config.

Lemma handleURL_streams (u : URL) (seen : gset jsstring) :
  url_findings (emitted (handleURL cfg u) seen) = filter (passes cfg) [u]
  /\ subdomain_findings (emitted (handleURL cfg u) seen)
     = fresh seen (hosts cfg [u])
  /\ path_findings (emitted (handleURL cfg u) seen) = []
  /\ final (handleURL cfg u) seen = seen ∪ list_to_set (hosts cfg [u]).
Proof.
  unfold emitted, final, hosts. rewrite handleURL_run.
  rewrite filter_cons, filter_nil.
  destruct (decide (passes cfg u)) as [Hs|Hs]; unfold passes in Hs.
  - rewrite Hs. simpl.
    destruct (bool_decide_reflect (hostname u ∈ seen)); simpl;
      repeat split; set_solver.
  - apply not_true_is_false in Hs. rewrite Hs. simpl.
    repeat split. set_solver.
Qed.

Lemma handleAll_streams (us : list URL) (seen : gset jsstring) :
  url_findings (emitted (forEach us (handleURL cfg)) seen)
  = filter (passes cfg) us
  /\ subdomain_findings (emitted (forEach us (handleURL cfg)) seen)
     = fresh seen (hosts cfg us)
  /\ path_findings (emitted (forEach us (handleURL cfg)) seen) = []
  /\ final (forEach us (handleURL cfg)) seen
     = seen ∪ list_to_set (hosts cfg us).
Proof.
  revert seen. induction us as [|u us IH]; intros seen.
  - unfold emitted, final, hosts. simpl. repeat split. set_solver.
  - rewrite forEach_cons, emitted_bind, final_bind.
    rewrite url_findings_app, subdomain_findings_app, path_findings_app.
    destruct (handleURL_streams u seen) as (Hu & Hs & Hp & Hf).
    destruct (IH (final (handleURL cfg u) seen)) as (Hu' & Hs' & Hp' & Hf').
    rewrite Hu, Hs, Hp, Hu', Hs', Hp', Hf', Hf.
    change (u :: us) with ([u] ++ us).
    unfold hosts. rewrite filter_app, map_app, fresh_app, list_to_set_app_L.
    repeat split. set_solver.
Qed.

Lemma scanURLs_handleAll (t : jsstring) (seen : gset jsstring) :
  scanURLs cfg t seen
  = forEach (parsed cfg (extractUrls t)) (handleURL cfg) seen.
Proof.
  unfold scanURLs, parsed, extractUrls. revert seen.
  induction (matchAll regex_url t) as [|m ms IH]; intros seen;
    [reflexivity|].
  rewrite forEach_cons, run_bind. unfold value, final, emitted.
  rewrite !IH. cbn [map omap list_omap]. unfold handleMatch.
  destruct (parseURL cfg (group 1 m)) as [u|].
  - cbn [mbind option_bind]. rewrite forEach_cons, run_bind.
    reflexivity.
  - cbn [mret Emit_ret fst snd app].
    now destruct (forEach _ _ seen) as [[[] s] o].
Qed.

Lemma scanURLs_streams (t : jsstring) (seen : gset jsstring) :
  url_findings (emitted (scanURLs cfg t) seen)
  = filter (passes cfg) (parsed cfg (extractUrls t))
  /\ subdomain_findings (emitted (scanURLs cfg t) seen)
     = fresh seen (hosts cfg (parsed cfg (extractUrls t)))
  /\ path_findings (emitted (scanURLs cfg t) seen) = []
  /\ final (scanURLs cfg t) seen
     = seen ∪ list_to_set (hosts cfg (parsed cfg (extractUrls t))).
Proof.
  unfold emitted, final. rewrite scanURLs_handleAll.
  apply handleAll_streams.
Qed.


Lemma path_findings_map (u : URL) (ps : list jsstring) :
  path_findings (map (PathFinding u) ps) = map (pair u) ps
  /\ url_findings (map (PathFinding u) ps) = []
  /\ subdomain_findings (map (PathFinding u) ps) = [].
Proof.
  induction ps as [|p ps (IH1 & IH2 & IH3)]; simpl; [auto|].
  now rewrite IH1.
Qed.





(** *** What [uniqueDomains] holds *)

Lemma adds_in_scope_ret {A} (a : A) : adds_in_scope cfg (mret a).
Proof. intros seen. unfold final. simpl. auto. Qed.

Lemma adds_in_scope_bind {A B} (c : Emit A) (f : A -> Emit B) :
  adds_in_scope cfg c -> (forall a, adds_in_scope cfg (f a)) ->
  adds_in_scope cfg (c ≫= f).
Proof.
  intros Hc Hf seen. rewrite final_bind.
  destruct (Hc seen) as [Hsub Hmem].
  destruct (Hf (value c seen) (final c seen)) as [Hsub' Hmem'].
  split; [now transitivity (final c seen)|].
  intros h Hh. apply Hmem' in Hh as [Hh|Hh]; auto.
Qed.

Lemma adds_in_scope_forEach {A} (g : A -> Emit unit) (l : list A) :
  (forall a, adds_in_scope cfg (g a)) -> adds_in_scope cfg (forEach l g).
Proof.
  intros Hg. induction l as [|a l IH]; [apply adds_in_scope_ret|].
  rewrite forEach_cons. apply adds_in_scope_bind; auto.
Qed.

Lemma adds_in_scope_handleURL (u : URL) :
  adds_in_scope cfg (handleURL cfg u).
Proof.
  intros seen. unfold final. rewrite handleURL_run.
  destruct (inScope (domains cfg) (hostname u)) eqn:Hs; simpl; [|auto].
  destruct (bool_decide (hostname u ∈ seen)); simpl; [auto|].
  split; [apply union_subseteq_r|].
  intros h Hh. apply elem_of_union in Hh as [Hh|Hh]; [|auto].
  apply elem_of_singleton in Hh as ->. auto.
Qed.

Lemma adds_in_scope_scanURLs (t : jsstring) :
  adds_in_scope cfg (scanURLs cfg t).
Proof.
  apply adds_in_scope_forEach. intros m. unfold handleMatch.
  destruct (parseURL cfg (group 1 m));
    [apply adds_in_scope_handleURL | apply adds_in_scope_ret].
Qed.

Lemma adds_in_scope_turn (t : turn) : adds_in_scope cfg (take_turn cfg t).
Proof.
  destruct t as [resp|u [body|]]; simpl.
  - apply adds_in_scope_bind; [|intros; apply adds_in_scope_ret].
    unfold on_response_head. destruct (parseURL cfg (url resp)) as [u|];
      [|apply adds_in_scope_ret].
    apply adds_in_scope_bind; [apply adds_in_scope_handleURL|]. intros _.
    apply adds_in_scope_bind; [apply adds_in_scope_scanURLs|]. intros _.
    destruct (skipsBody _ _); apply adds_in_scope_ret.
  - apply adds_in_scope_bind; [apply adds_in_scope_scanURLs|]. intros _.
    apply adds_in_scope_forEach. intros m seen. unfold final. simpl. auto.
  - apply adds_in_scope_ret.
Qed.

(** [uniqueDomains] never loses a host name, and after any run it holds
    only host names that are in scope. *)
Theorem uniqueDomains_grows_in_scope :
  (forall ts seen, seen ⊆ final (forEach ts (take_turn cfg)) seen)
  /\ (forall ts h, h ∈ (run cfg ts).1 -> inScope (domains cfg) h = true).
Proof.
  split.
  - intros ts seen.
    apply (adds_in_scope_forEach (take_turn cfg) ts adds_in_scope_turn).
  - intros ts h Hh. unfold run in Hh. cbn [fst] in Hh.
    apply (adds_in_scope_forEach (take_turn cfg) ts adds_in_scope_turn)
      in Hh as [Hh|Hh]; [|exact Hh].
    now apply not_elem_of_empty in Hh.
Qed.

(** *** URL findings come after their host *)

Lemma url_after_host_snoc (out : list Finding) (f : Finding) :
  url_after_host out ->
  (forall u, f = UrlFinding u -> In (SubdomainFinding (hostname u)) out) ->
  url_after_host (out ++ [f]).
Proof.
  intros Hout Hf pre u post Heq.
  destruct post as [|x post _] using rev_ind.
  - apply app_inj_tail in Heq as [-> Hfu]. now apply Hf.
  - change (pre ++ UrlFinding u :: post ++ [x])
      with (pre ++ (UrlFinding u :: post) ++ [x]) in Heq.
    rewrite app_assoc in Heq. apply app_inj_tail in Heq as [Heq _].
    now apply (Hout pre u post).
Qed.

Lemma keeps_order_ret {A} (a : A) : keeps_order (mret a).
Proof.
  intros seen out H. unfold final, emitted. simpl. now rewrite app_nil_r.
Qed.

Lemma keeps_order_bind {A B} (c : Emit A) (f : A -> Emit B) :
  keeps_order c -> (forall a, keeps_order (f a)) -> keeps_order (c ≫= f).
Proof.
  intros Hc Hf seen out H. rewrite final_bind, emitted_bind, app_assoc.
  now apply Hf, Hc.
Qed.

Lemma keeps_order_forEach {A} (g : A -> Emit unit) (l : list A) :
  (forall a, keeps_order (g a)) -> keeps_order (forEach l g).
Proof.
  intros Hg. induction l as [|a l IH]; [apply keeps_order_ret|].
  rewrite forEach_cons. apply keeps_order_bind; auto.
Qed.

Lemma keeps_order_handleURL (u : URL) : keeps_order (handleURL cfg u).
Proof.
  intros seen out [Hd Ho].
  split; [now apply keeps_dedup_handleURL|].
  unfold emitted. rewrite handleURL_run.
  destruct (inScope (domains cfg) (hostname u)); simpl;
    [|now rewrite app_nil_r].
  destruct (bool_decide_reflect (hostname u ∈ seen)) as [Hin|Hnew]; simpl.
  - apply url_after_host_snoc; [exact Ho|].
    intros u' Hu'. injection Hu' as <-. now apply Hd.
  - change [SubdomainFinding (hostname u); UrlFinding u]
      with ([SubdomainFinding (hostname u)] ++ [UrlFinding u]).
    rewrite app_assoc. apply url_after_host_snoc.
    + apply url_after_host_snoc; [exact Ho | discriminate].
    + intros u' Hu'. injection Hu' as <-.
      apply in_or_app. right. now left.
Qed.

Lemma keeps_order_path (u : URL) (p : jsstring) :
  keeps_order (handlePath u p).
Proof.
  intros seen out [Hd Ho]. unfold final, emitted. simpl. split.
  - now apply dedup_inv_other.
  - apply url_after_host_snoc; [exact Ho | discriminate].
Qed.

Lemma keeps_order_scanURLs (t : jsstring) : keeps_order (scanURLs cfg t).
Proof.
  apply keeps_order_forEach. intros m. unfold handleMatch.
  destruct (parseURL cfg (group 1 m));
    [apply keeps_order_handleURL | apply keeps_order_ret].
Qed.

Lemma keeps_order_turn (t : turn) : keeps_order (take_turn cfg t).
Proof.
  destruct t as [resp|u [body|]]; simpl.
  - apply keeps_order_bind; [|intros; apply keeps_order_ret].
    unfold on_response_head. destruct (parseURL cfg (url resp)) as [u|];
      [|apply keeps_order_ret].
    apply keeps_order_bind; [apply keeps_order_handleURL|]. intros _.
    apply keeps_order_bind; [apply keeps_order_scanURLs|]. intros _.
    destruct (skipsBody _ _); apply keeps_order_ret.
  - apply keeps_order_bind; [apply keeps_order_scanURLs|]. intros _.
    apply keeps_order_forEach. intros m. apply keeps_order_path.
  - apply keeps_order_ret.
Qed.

(** In the trace of any run, whatever the order of its turns, every URL
    finding comes after the subdomain finding of its host name. *)
Theorem host_written_before_url (ts : list turn) :
  url_after_host (run cfg ts).2.
Proof.
  unfold run. cbn [snd].
  apply (keeps_order_forEach (take_turn cfg) ts keeps_order_turn ∅ []).
  split.
  - split; [|constructor]. intros h. split; [|intros []].
    intros H. now apply not_elem_of_empty in H.
  - intros pre u post Heq. now destruct pre.
Qed.

End Streams.

(** ** The scans, completed *)

Lemma lazy_class_complete (neg : bool) (items : list class_item)
    (b t : jsstring) (c : list (option jsstring)) (k : cont) (z : mstate)
    (fuel : nat) :
  Forall (fun d => xorb neg (class_mem items d) = true) b ->
  k (MState t c) = Some z ->
  (forall b1 b2, b = b1 ++ b2 -> b2 <> [] -> k (MState (b2 ++ t) c) = None) ->
  length (b ++ t) <= fuel ->
  lazy_loop (matcher (Class neg items)) [] fuel (MState (b ++ t) c) k
  = Some z.
Proof.
  revert fuel. induction b as [|d b IH]; intros fuel Hb Hk Hmin Hfuel.
  - simpl app. destruct fuel; cbn [lazy_loop]; now rewrite Hk.
  - destruct fuel as [|fuel]; [simpl in Hfuel; lia|].
    cbn [lazy_loop]. rewrite (Hmin [] (d :: b) eq_refl) by discriminate.
    cbn [rest caps reset foldr]. simpl app. rewrite class_step.
    inversion Hb as [|? ? Hd Hb']; subst. rewrite Hd.
    cbn [rest]. rewrite no_progress_false.
    apply IH; auto.
    + intros b1 b2 Hb12 Hne. apply (Hmin (d :: b1) b2); [|exact Hne].
      now rewrite Hb12.
    + simpl in Hfuel. lia.
Qed.

Lemma url_ahead_fails (x : mstate) :
  ~ terminated (rest x) -> matcher url_ahead x Some = None.
Proof.
  intros Hno. destruct (matcher url_ahead x Some) as [y|] eqn:Hy;
    [|reflexivity].
  apply url_ahead_inv in Hy as [Ht _]. contradiction.
Qed.

Lemma url_ahead_holds (x : mstate) :
  terminated (rest x) ->
  exists y, matcher url_ahead x Some = Some y /\ caps y = caps x.
Proof.
  intros Ht. destruct (matcher url_ahead x Some) as [y|] eqn:Hy.
  - exists y. split; [reflexivity|]. now apply url_ahead_inv in Hy.
  - now apply url_ahead_complete in Ht.
Qed.

Lemma regex_url_complete (u after : jsstring) :
  url_text u after ->
  matcher regex_url (MState (u ++ after) [None; None]) Some
  = Some (MState after [None; Some u]).
Proof.
  intros (sch & body & -> & Hsch & Hne & Hns & Hterm & Hmin).
  destruct body as [|d b]; [now destruct Hne|].
  inversion Hns as [|? ? Hd Hb]; subst.
  unfold regex_url. rewrite matcher_seq, matcher_group, matcher_seq.
  rewrite (scheme_complete _ _ sch ((d :: b) ++ after) Hsch)
    by (cbn [rest]; now rewrite <- app_assoc).
  rewrite matcher_lazyplus. unfold advance.
  cbn [groups reset foldr rest caps]. simpl app. rewrite class_step.
  unfold stops in Hd. rewrite Hd. cbn [xorb negb rest].
  fold url_ahead.
  apply lazy_class_complete.
  - eapply Forall_impl; [exact Hb|]. intros c Hc. cbv beta in Hc.
    unfold stops in Hc. now rewrite Hc.
  - rewrite matcher_lookahead. cbn [rest caps].
    destruct (url_ahead_holds
                (MState after
                   (<[1 := Some (consumed
                                   (MState ((sch ++ d :: b) ++ after)
                                      [None; None])
                                   (MState after [None; None]))]>
                      [None; None]))) as (y & Hy & Hcaps);
      [exact Hterm|].
    rewrite Hy, Hcaps. cbn [caps].
    now rewrite consumed_app.
  - intros b1 b2 Hb12 Hb2. rewrite matcher_lookahead.
    rewrite url_ahead_fails; [reflexivity|]. cbn [rest].
    apply (Hmin (d :: b1) b2); [now rewrite Hb12 | discriminate | exact Hb2].
  - reflexivity.
Qed.

Lemma chr_step (c : N) (t : jsstring) (cs : list (option jsstring))
    (k : cont) :
  matcher (Chr c) (MState (c :: t) cs) k = k (MState t cs).
Proof. cbn [matcher rest advance caps]. now rewrite N.eqb_refl. Qed.

Lemma backref_step (n : nat) (s t : jsstring)
    (cs : list (option jsstring)) :
  cs !! n = Some (Some s) ->
  matcher (Backref n) (MState (s ++ t) cs) Some = Some (MState t cs).
Proof.
  intros Hn. cbn [matcher rest caps advance]. rewrite Hn.
  assert (Hs : startsWith (s ++ t) s = true)
    by (apply startsWith_spec; eauto).
  rewrite Hs. now rewrite drop_app_length.
Qed.

Lemma backref_fails (n : nat) (q d : N) (t : jsstring)
    (cs : list (option jsstring)) :
  cs !! n = Some (Some ([q] : jsstring)) -> q <> d ->
  matcher (Backref n) (MState (d :: t) cs) Some = None.
Proof.
  intros Hn Hqd. cbn [matcher rest caps advance]. rewrite Hn.
  cbn [startsWith]. now destruct (N.eqb_spec q d).
Qed.

Lemma regex_path_complete (q : N) (p after : jsstring) :
  is_quote q -> path_text p ->
  matcher regex_path (MState (q :: p ++ q :: after) [None; None; None]) Some
  = Some (MState after [None; Some [q]; Some p]).
Proof.
  intros Hq (c & b & -> & Hc & Hb).
  assert (Hopen : forall t k,
            matcher (Alt (Chr dquote) (Chr squote))
              (MState (q :: t) [None; None; None]) k
            = k (MState t [None; None; None])).
  { intros t k. rewrite matcher_alt.
    destruct Hq as [-> | ->].
    - rewrite chr_step. now destruct (k _).
    - rewrite chr_step. reflexivity. }
  unfold regex_path. rewrite matcher_seq, matcher_group, Hopen.
  cbn [rest caps].
  change (q :: (cu "/" :: c :: b) ++ q :: after)
    with ([q] ++ (cu "/" :: c :: b) ++ q :: after).
  rewrite consumed_app.
  rewrite matcher_seq, matcher_group, matcher_seq.
  cbn [app]. rewrite chr_step, matcher_seq, class_step, Hc. cbn [xorb].
  rewrite matcher_lazystar. cbn [groups rest].
  apply lazy_class_complete.
  - exact Hb.
  - cbn [rest caps].
    rewrite (consumed_pre _ _ (cu "/" :: c :: b)) by reflexivity.
    exact (backref_step 1 [q] after
             [None; Some [q]; Some (cu "/" :: c :: b)] eq_refl).
  - intros b1 b2 Hb12 Hne. cbn [rest caps].
    destruct b2 as [|d b2]; [now destruct Hne|].
    cbn [app]. apply backref_fails with (q := q); [reflexivity|].
    intros <-. subst b. apply Forall_app in Hb as [_ Hb].
    inversion Hb as [|? ? Hd _]; subst.
    now apply path_more_no_quote in Hd.
  - reflexivity.
Qed.

Lemma url_found_where_it_stands_aux (before u after : jsstring) :
  url_text u after ->
  match_at regex_url (before ++ u ++ after) (length before)
  = Some (Result (length before) (length before + length u)
            [Some u; Some u]).
Proof.
  intros Hu. unfold match_at.
  change (replicate (S (list_max (groups regex_url))) None)
    with [@None jsstring; None].
  rewrite drop_app_length, (regex_url_complete u after Hu).
  cbn [rest caps]. rewrite consumed_app. cbn [list_insert].
  do 2 f_equal. rewrite !length_app. lia.
Qed.

(** [regex.url] matches at every place where a URL text stands and is
    followed as its lookahead asks. *)
Theorem url_found_where_it_stands (before u after : jsstring) :
  url_text u after ->
  match_at regex_url (before ++ u ++ after) (length before)
  = Some (Result (length before) (length before + length u)
            [Some u; Some u]).
Proof. apply url_found_where_it_stands_aux. Qed.

Lemma path_found_where_it_stands_aux (before p after : jsstring) (q : N) :
  is_quote q -> path_text p ->
  match_at regex_path (before ++ q :: p ++ q :: after) (length before)
  = Some (Result (length before) (length before + length (q :: p ++ [q]))
            [Some (q :: p ++ [q]); Some [q]; Some p]).
Proof.
  intros Hq Hp. unfold match_at.
  change (replicate (S (list_max (groups regex_path))) None)
    with [@None jsstring; None; None].
  rewrite drop_app_length, (regex_path_complete q p after Hq Hp).
  cbn [rest caps].
  replace (q :: p ++ q :: after) with ((q :: p ++ [q]) ++ after)
    by (simpl; now rewrite <- app_assoc).
  rewrite consumed_app. cbn [list_insert].
  do 2 f_equal. rewrite !length_app. simpl. rewrite !length_app. simpl. lia.
Qed.

(** [regex.path] matches at every place where a path text stands between
    two equal quotes. *)
Theorem path_found_where_it_stands (before p after : jsstring) (q : N) :
  is_quote q -> path_text p ->
  match_at regex_path (before ++ q :: p ++ q :: after) (length before)
  = Some (Result (length before) (length before + length (q :: p ++ [q]))
            [Some (q :: p ++ [q]); Some [q]; Some p]).
Proof. apply path_found_where_it_stands_aux. Qed.

Lemma match_at_index (r : regex) (s : jsstring) (j : nat) (m : result) :
  match_at r s j = Some m -> index m = j.
Proof.
  unfold match_at. destruct (matcher r _ Some); [|discriminate].
  intros H. now injection H as <-.
Qed.

Lemma search_first (r : regex) (s : jsstring) (n i : nat) (m : result) :
  search r s n i = Some m ->
  i <= index m <= i + n
  /\ match_at r s (index m) = Some m
  /\ forall j, i <= j < index m -> match_at r s j = None.
Proof.
  revert i. induction n as [|n IH]; intros i; simpl;
    destruct (match_at r s i) eqn:Hi; intros H.
  1,3: injection H as ->; rewrite (match_at_index _ _ _ _ Hi);
    repeat split; [lia.. | exact Hi | intros j Hj; lia].
  - discriminate.
  - apply IH in H as (Hle & Hm & Hnone). repeat split; [lia.. | exact Hm |].
    intros j Hj. destruct (decide (j = i)) as [->|]; [exact Hi|].
    apply Hnone. lia.
Qed.

Lemma search_none (r : regex) (s : jsstring) (n i : nat) :
  search r s n i = None ->
  forall j, i <= j <= i + n -> match_at r s j = None.
Proof.
  revert i. induction n as [|n IH]; intros i; simpl;
    destruct (match_at r s i) eqn:Hi; intros H j Hj; try discriminate.
  - now replace j with i by lia.
  - destruct (decide (j = i)) as [->|]; [exact Hi|].
    apply (IH (S i) H). lia.
Qed.

Lemma matchAll_loop_in_order (fuel : nat) (r : regex) (s : jsstring)
    (last l : nat) (ms : list result) :
  matchAll_loop fuel r s last = Some (ms, l) -> in_order last ms.
Proof.
  revert last ms. induction fuel as [|fuel IH]; intros last ms; simpl;
    [discriminate|].
  destruct (exec r s last) as [[m|] l'] eqn:He.
  - destruct (matchAll_loop fuel r s l') as [[ms' l'']|] eqn:Hl;
      [|discriminate].
    intros H. injection H as <- <-. simpl.
    pose proof He as He'. apply exec_some in He' as (-> & j & Hj & Hm).
    rewrite (match_at_index _ _ _ _ Hm). split; [lia|]. now apply (IH _ _ Hl).
  - intros H. now injection H as <- _.
Qed.

Lemma matchAll_loop_covers (fuel : nat) (r : regex) (s : jsstring)
    (last l : nat) (ms : list result) :
  matchAll_loop fuel r s last = Some (ms, l) ->
  forall j, last <= j <= length s -> match_at r s j <> None ->
  exists m, In m ms /\ index m <= j < endIndex m.
Proof.
  revert last ms. induction fuel as [|fuel IH]; intros last ms; simpl;
    [discriminate|].
  unfold exec. destruct (length s <? last) eqn:Hlen.
  { apply Nat.ltb_lt in Hlen. intros _ j Hj. lia. }
  destruct (search r s (length s - last) last) as [m|] eqn:Hs.
  - destruct (matchAll_loop fuel r s (endIndex m)) as [[ms' l'']|] eqn:Hl;
      [|discriminate].
    intros H. injection H as <- <-. intros j Hj Hm.
    apply search_first in Hs as (Hle & _ & Hnone).
    destruct (le_lt_dec (index m) j) as [Hij|Hij].
    + destruct (le_lt_dec (endIndex m) j) as [Hej|Hej].
      * destruct (IH _ _ Hl j) as (m' & Hin & Hm'); [lia | exact Hm |].
        exists m'. split; [now right | exact Hm'].
      * exists m. split; [now left | lia].
    + destruct Hm. apply Hnone. lia.
  - intros _ j Hj Hm. destruct Hm.
    apply (search_none _ _ _ _ Hs). apply Nat.ltb_ge in Hlen. lia.
Qed.

(** The matches of a scan come from left to right and do not overlap:
    each starts at or after the end of the one before, and each match of
    the two expressions has a positive length within the text. *)
Theorem scan_in_order (s : jsstring) :
  in_order 0 (matchAll regex_url s)
  /\ in_order 0 (matchAll regex_path s)
  /\ (forall m, In m (matchAll regex_url s) ->
        index m < endIndex m <= length s)
  /\ (forall m, In m (matchAll regex_path s) ->
        index m < endIndex m <= length s).
Proof.
  split; [|split; [|split]].
  - apply (matchAll_loop_in_order _ _ _ _ _ _ (matchAll_url_total s)).
  - apply (matchAll_loop_in_order _ _ _ _ _ _ (matchAll_path_total s)).
  - intros m Hm. apply matchAll_in in Hm as (j & _ & Hm).
    rewrite (match_at_index _ _ _ _ Hm). now apply match_at_url_bounds.
  - intros m Hm. apply matchAll_in in Hm as (j & _ & Hm).
    rewrite (match_at_index _ _ _ _ Hm). now apply match_at_path_bounds.
Qed.

Lemma match_at_in_text (r : regex) (s : jsstring) (j : nat) :
  (forall i m, match_at r s i = Some m -> i < endIndex m <= length s) ->
  match_at r s j <> None -> j <= length s.
Proof.
  intros Hpos Hj. destruct (match_at r s j) as [m|] eqn:Hm; [|congruence].
  apply Hpos in Hm. lia.
Qed.

Lemma scan_covers_aux (s : jsstring) (j : nat) :
  (match_at regex_url s j <> None ->
     exists m, In m (matchAll regex_url s) /\ index m <= j < endIndex m)
  /\ (match_at regex_path s j <> None ->
        exists m, In m (matchAll regex_path s) /\ index m <= j < endIndex m).
Proof.
  split; intros Hj.
  - apply (matchAll_loop_covers _ _ _ _ _ _ (matchAll_url_total s));
      [|exact Hj].
    split; [lia|]. apply (match_at_in_text regex_url s j); [|exact Hj].
    apply match_at_url_bounds.
  - apply (matchAll_loop_covers _ _ _ _ _ _ (matchAll_path_total s));
      [|exact Hj].
    split; [lia|]. apply (match_at_in_text regex_path s j); [|exact Hj].
    apply match_at_path_bounds.
Qed.

(** A scan leaves out no place where its expression matches, except the
    places inside a match it has reported. *)
Theorem scan_covers (s : jsstring) (j : nat) :
  (match_at regex_url s j <> None ->
     exists m, In m (matchAll regex_url s) /\ index m <= j < endIndex m)
  /\ (match_at regex_path s j <> None ->
        exists m, In m (matchAll regex_path s) /\ index m <= j < endIndex m).
Proof. apply scan_covers_aux. Qed.

Lemma in_order_from (last : nat) (ms : list result) (m : result) :
  (forall m', In m' ms -> index m' < endIndex m') ->
  in_order last ms -> In m ms -> last <= index m.
Proof.
  revert last. induction ms as [|m0 ms IH]; intros last Hpos Hord Hm;
    [destruct Hm|].
  destruct Hord as [Hle Hord]. destruct Hm as [->|Hm]; [exact Hle|].
  assert (index m0 < endIndex m0) by (apply Hpos; now left).
  assert (endIndex m0 <= index m); [|lia].
  apply IH; [|exact Hord | exact Hm].
  intros m' Hm'. apply Hpos. now right.
Qed.

(** Two matches of one scan start at the same place or lie apart. *)
Lemma in_order_apart (last : nat) (ms : list result) (m m' : result) :
  (forall m0, In m0 ms -> index m0 < endIndex m0) ->
  in_order last ms -> In m ms -> In m' ms ->
  index m = index m' \/ endIndex m <= index m' \/ endIndex m' <= index m.
Proof.
  revert last. induction ms as [|m0 ms IH]; intros last Hpos Hord Hm Hm';
    [destruct Hm|].
  destruct Hord as [_ Hord].
  assert (Hpos' : forall m1, In m1 ms -> index m1 < endIndex m1)
    by (intros m1 Hm1; apply Hpos; now right).
  destruct Hm as [->|Hm], Hm' as [->|Hm'].
  - now left.
  - right. left. now apply (in_order_from _ ms).
  - right. right. now apply (in_order_from _ ms).
  - now apply (IH (endIndex m0)).
Qed.

(** A match of [regex.path] holds a quote at its two ends only. *)
Lemma match_at_path_quotes (s : jsstring) (j i : nat) (m : result) (q : N) :
  match_at regex_path s j = Some m ->
  j < i < endIndex m -> s !! i = Some q -> is_quote q ->
  endIndex m = S i /\ group 1 m = [q].
Proof.
  intros Hm Hi Hq Hquote.
  apply match_at_path in Hm
    as (q' & c & b & after & _ & Hc & Hb & Hs & Hj & ->).
  cbn [endIndex] in *. unfold group. cbn [array lookup list_lookup].
  set (p := cu "/" :: c :: b) in *.
  assert (Hlen : length (q' :: p ++ [q']) = S (S (length p)))
    by (simpl; rewrite length_app; simpl; lia).
  rewrite Hlen in *.
  assert (Hp : Forall (fun d => ~ is_quote d) p).
  { subst p. constructor; [intros [H|H]; vm_compute in H; discriminate|].
    constructor; [apply (path_first_plain c Hc)|].
    eapply Forall_impl; [exact Hb|]. intros d. apply path_more_no_quote. }
  unfold jsstring in *.
  rewrite Hs in Hq. rewrite lookup_app_r in Hq by lia. rewrite Hj in Hq.
  destruct (i - j) as [|k] eqn:Hk; [lia|].
  change ((p ++ q' :: after) !! k = Some q) in Hq.
  destruct (decide (k < length p)) as [Hlt|Hge].
  - rewrite lookup_app_l in Hq by exact Hlt.
    apply list_elem_of_lookup_2 in Hq.
    rewrite Forall_forall in Hp. now destruct (Hp q Hq).
  - assert (Hkp : k = length p) by lia.
    rewrite (list_lookup_middle p after q' k Hkp) in Hq.
    injection Hq as ->. split; [lia | reflexivity].
Qed.

(** A path between two equal quotes is reported by the scan with
    [regex.path], unless its opening quote lies inside an earlier match:
    some match of the scan covers the opening quote.  When that match
    starts at the opening quote, it ends after the closing quote and has
    the path as group 2.  When it starts earlier, the opening quote is
    its last code unit, the quote that closes it, and no match of the scan
    starts at the opening quote: the literal is left out. *)
Theorem quoted_path_reported (before p after : jsstring) (q : N) :
  is_quote q -> path_text p ->
  exists m,
    In m (matchAll regex_path (before ++ q :: p ++ q :: after))
    /\ index m <= length before < endIndex m
    /\ (index m = length before ->
          endIndex m = length before + length (q :: p ++ [q])
          /\ group 2 m = p)
    /\ (index m < length before ->
          endIndex m = S (length before)
          /\ group 1 m = [q]
          /\ forall m',
               In m' (matchAll regex_path (before ++ q :: p ++ q :: after)) ->
               index m' <> length before).
Proof.
  intros Hq Hp.
  set (text := before ++ q :: p ++ q :: after).
  pose proof (path_found_where_it_stands_aux before p after q Hq Hp) as Hat.
  fold text in Hat.
  destruct (proj2 (scan_covers_aux text (length before)))
    as (m & Hin & Hm).
  { rewrite Hat. discriminate. }
  exists m. split; [exact Hin|]. split; [exact Hm|].
  pose proof Hin as Hj. apply matchAll_in in Hj as (j & _ & Hj).
  pose proof (match_at_index _ _ _ _ Hj) as Hij.
  split.
  - intros Hidx. rewrite Hidx in Hij. subst j. rewrite Hat in Hj.
    injection Hj as <-. split; reflexivity.
  - intros Hlt.
    assert (Hquote : text !! length before = Some q)
      by (now apply list_lookup_middle).
    destruct (match_at_path_quotes text j (length before) m q Hj)
      as [Hend Hg]; [lia | exact Hquote | exact Hq |].
    split; [exact Hend|]. split; [exact Hg|].
    intros m' Hin' Hidx'.
    assert (Hpos : forall m0, In m0 (matchAll regex_path text) ->
                     index m0 < endIndex m0).
    { intros m0 Hm0. apply matchAll_in in Hm0 as (j0 & _ & Hm0).
      rewrite (match_at_index _ _ _ _ Hm0).
      now apply (match_at_path_bounds text). }
    pose proof (matchAll_loop_in_order _ _ _ _ _ _
                  (matchAll_path_total text)) as Hord.
    pose proof (Hpos m' Hin').
    destruct (in_order_apart 0 _ m m' Hpos Hord Hin Hin') as [H1|[H1|H1]];
      lia.
Qed.

(** A URL text followed by a delimiter or a scheme is reported by the
    scan with [regex.url], unless it starts inside an earlier match; the
    match that starts where it starts has it as group 1. *)
Theorem url_reported (before u after : jsstring) :
  url_text u after ->
  exists m,
    In m (matchAll regex_url (before ++ u ++ after))
    /\ index m <= length before < endIndex m
    /\ (index m = length before -> group 1 m = u).
Proof.
  intros Hu.
  pose proof (url_found_where_it_stands_aux before u after Hu) as Hat.
  destruct (proj1 (scan_covers_aux (before ++ u ++ after) (length before)))
    as (m & Hin & Hm).
  { rewrite Hat. discriminate. }
  exists m. split; [exact Hin|]. split; [exact Hm|].
  intros Hidx. apply matchAll_in in Hin as (j & _ & Hj).
  pose proof (match_at_index _ _ _ _ Hj) as Hij.
  rewrite Hidx in Hij. subst j. rewrite Hat in Hj.
  now injection Hj as <-.
Qed.

(** ** More on the scope filter *)

Lemma inScope_subset (D1 D2 : list jsstring) (h : jsstring) :
  (forall d, In d D1 -> In d D2) ->
  inScope D1 h = true -> inScope D2 h = true.
Proof.
  intros Hsub H. apply inScope_spec in H as (Hw & d & Hd & Hm).
  apply inScope_spec. split; [exact Hw|]. exists d. auto.
Qed.

Lemma inScope_set_of_domains_aux (D1 D2 : list jsstring) (h : jsstring) :
  ((forall d, In d D1 <-> In d D2) -> inScope D1 h = inScope D2 h)
  /\ ((forall d, In d D1 -> In d D2) ->
        inScope D1 h = true -> inScope D2 h = true).
Proof.
  split; [|apply inScope_subset].
  intros Hsame. apply eq_true_iff_eq.
  split; apply inScope_subset; intros d; apply Hsame.
Qed.

(** [inScope] looks at the root domains as a set: two lists with the same
    members give the same answer for every host name, whatever their order
    and their repetitions, and a longer list only widens the scope. *)
Theorem inScope_set_of_domains (D1 D2 : list jsstring) (h : jsstring) :
  ((forall d, In d D1 <-> In d D2) -> inScope D1 h = inScope D2 h)
  /\ ((forall d, In d D1 -> In d D2) ->
        inScope D1 h = true -> inScope D2 h = true).
Proof. apply inScope_set_of_domains_aux. Qed.

(** A subdomain of a host name in scope is in scope, unless it is written
    with the wildcard marker. *)
Theorem inScope_subdomain (D : list jsstring) (label h : jsstring) :
  inScope D h = true ->
  startsWith (label ++ js "." ++ h) (js "*.") = false ->
  inScope D (label ++ js "." ++ h) = true.
Proof.
  intros H Hw. apply inScope_spec in H as (_ & d & Hd & Hm).
  apply inScope_spec. split.
  - intros Hstar. apply startsWith_spec in Hstar. congruence.
  - exists d. split; [exact Hd|]. right.
    destruct Hm as [->|[k ->]].
    + now exists label.
    + exists (label ++ js "." ++ k). now rewrite <- !app_assoc.
Qed.

(** A root domain that holds a code unit the host name does not hold
    never brings the host name into scope. *)
Theorem inScope_foreign_unit (D : list jsstring) (d h : jsstring) (c : N) :
  In c d -> ~ In c h -> inScope (d :: D) h = inScope D h.
Proof.
  intros Hc Hh. apply eq_true_iff_eq. split.
  - intros H. apply inScope_spec in H as (Hw & d' & Hd' & Hm).
    apply inScope_spec. split; [exact Hw|].
    destruct Hd' as [<-|Hd']; [|eauto].
    exfalso. apply Hh. destruct Hm as [->|[k ->]]; [exact Hc|].
    apply in_or_app. right. apply in_or_app. now right.
  - apply inScope_subset. intros d'. now right.
Qed.

(** ** The start of a run *)

Lemma split_not_nil (sep : N) (s : jsstring) : split sep s <> [].
Proof.
  induction s as [|c s IH]; simpl; [discriminate|].
  destruct (c =? sep)%N; [discriminate|].
  now destruct (split sep s).
Qed.

Lemma split_app (sep : N) (a b : jsstring) :
  split sep (a ++ sep :: b) = split sep a ++ split sep b.
Proof.
  induction a as [|c a IH]; simpl.
  - now rewrite N.eqb_refl.
  - destruct (c =? sep)%N; rewrite IH; [reflexivity|].
    pose proof (split_not_nil sep a). now destruct (split sep a).
Qed.

Lemma split_no_sep (sep : N) (s : jsstring) :
  Forall (fun p => ~ In sep p) (split sep s).
Proof.
  induction s as [|c s IH]; simpl.
  - constructor; [intros [] | constructor].
  - destruct (N.eqb_spec c sep) as [->|Hc].
    + constructor; [intros [] | exact IH].
    + destruct (split sep s) as [|p ps]; [repeat constructor; intros [H|[]];
        congruence|].
      inversion IH as [|? ? Hp Hps]; subst.
      constructor; [|exact Hps]. intros [H|H]; [congruence | now apply Hp].
Qed.

Lemma split_whole (sep : N) (s : jsstring) :
  ~ In sep s -> split sep s = [s].
Proof.
  induction s as [|c s IH]; intros Hs; simpl; [reflexivity|].
  destruct (N.eqb_spec c sep) as [->|Hc]; [destruct Hs; now left|].
  rewrite IH; [reflexivity|]. intros H. apply Hs. now right.
Qed.

Lemma pieces_app (sep : N) (a b : jsstring) :
  pieces sep (a ++ sep :: b) = pieces sep a ++ pieces sep b.
Proof. unfold pieces. now rewrite split_app, filter_app. Qed.

Lemma pieces_plain (sep : N) (p : jsstring) :
  In p (pieces sep p) <-> p <> [] /\ ~ In sep p.
Proof.
  split.
  - intros H. apply list_elem_of_In, list_elem_of_filter in H as [Ht H].
    split; [now destruct p|].
    pose proof (split_no_sep sep p) as Hall.
    rewrite List.Forall_forall in Hall. apply Hall.
    now apply list_elem_of_In.
  - intros [Hne Hsep]. unfold pieces. rewrite (split_whole sep p Hsep).
    destruct p; [congruence|]. rewrite filter_cons_True by reflexivity.
    now left.
Qed.

Lemma pieces_facts (sep : N) (s : jsstring) :
  Forall (fun p => p <> [] /\ ~ In sep p) (pieces sep s).
Proof.
  apply List.Forall_forall. intros p Hp.
  apply list_elem_of_In, list_elem_of_filter in Hp as [Ht Hp].
  split; [now destruct p|].
  pose proof (split_no_sep sep s) as Hall.
  rewrite List.Forall_forall in Hall. apply Hall. now apply list_elem_of_In.
Qed.

Lemma fold_set_add (l acc : list jsstring) :
  NoDup acc ->
  NoDup (fold_left set_add l acc)
  /\ forall x, x ∈ fold_left set_add l acc <-> x ∈ acc \/ x ∈ l.
Proof.
  revert acc. induction l as [|y l IH]; intros acc Hacc; simpl.
  - split; [exact Hacc|]. intros x. rewrite elem_of_nil. tauto.
  - unfold set_add at 2 4.
    destruct (bool_decide_reflect (y ∈ acc)) as [Hin|Hnew].
    + destruct (IH acc Hacc) as [Hnd Hmem]. split; [exact Hnd|].
      intros x. rewrite Hmem, elem_of_cons. split; [tauto|].
      intros [H|[->|H]]; auto.
    + destruct (IH (acc ++ [y])) as [Hnd Hmem].
      { apply NoDup_app. split; [exact Hacc|].
        split; [|apply NoDup_singleton].
        intros x Hx Hy. apply list_elem_of_singleton in Hy as ->.
        contradiction. }
      split; [exact Hnd|]. intros x.
      rewrite Hmem, elem_of_app, list_elem_of_singleton, elem_of_cons.
      tauto.
Qed.

Lemma uniq_facts (l : list jsstring) :
  NoDup (uniq l) /\ forall x, In x (uniq l) <-> In x l.
Proof.
  destruct (fold_set_add l []) as [Hnd Hmem]; [constructor|].
  split; [exact Hnd|]. intros x. unfold uniq.
  rewrite <- !list_elem_of_In, Hmem, elem_of_nil. tauto.
Qed.

Lemma root_domains_facts_aux (o : Options) :
  NoDup (root_domains o)
  /\ Forall (fun d => d <> [] /\ ~ In comma d) (root_domains o)
  /\ (forall h, inScope (root_domains o) h
              = inScope (pieces comma (or_empty (opt_domains o))) h)
  /\ (forall a b, opt_domains o = Some (a ++ comma :: b) ->
        forall d, In d (root_domains o)
                  <-> In d (pieces comma a) \/ In d (pieces comma b)).
Proof.
  unfold root_domains.
  destruct (uniq_facts (pieces comma (or_empty (opt_domains o))))
    as [Hnd Hmem].
  split; [exact Hnd|]. split; [|split].
  - apply List.Forall_forall. intros d Hd. apply Hmem in Hd.
    pose proof (pieces_facts comma (or_empty (opt_domains o))) as Hall.
    rewrite List.Forall_forall in Hall. now apply Hall.
  - intros h. now apply (proj1 (inScope_set_of_domains_aux _ _ h)).
  - intros a b Ho d. rewrite Hmem. unfold or_empty. rewrite Ho.
    assert (Hg : given (Some (a ++ comma :: b)) = Some (a ++ comma :: b))
      by (unfold given; now destruct a).
    rewrite Hg, pieces_app. apply in_app_iff.
Qed.

(** The root domains of a run have no duplicate, none of them is empty or
    holds a comma, and they give the scope of the pieces of [--domains] as
    they were written; the domains of two lists joined by a comma are the
    domains of the one and those of the other. *)
Theorem root_domains_facts (o : Options) :
  NoDup (root_domains o)
  /\ Forall (fun d => d <> [] /\ ~ In comma d) (root_domains o)
  /\ (forall h, inScope (root_domains o) h
              = inScope (pieces comma (or_empty (opt_domains o))) h)
  /\ (forall a b, opt_domains o = Some (a ++ comma :: b) ->
        forall d, In d (root_domains o)
                  <-> In d (pieces comma a) \/ In d (pieces comma b)).
Proof. apply root_domains_facts_aux. Qed.

Lemma parse_all_Forall2 (w : World) (l : list jsstring) (us : list URL) :
  parse_all w l = Some us
  <-> Forall2 (fun line u => newURL w line = Some u) l us.
Proof.
  revert us. induction l as [|line l IH]; intros us; simpl.
  - split; [intros H; injection H as <-; constructor|].
    intros H. now inversion H.
  - destruct (newURL w line) as [u|] eqn:Hu.
    + destruct (parse_all w l) as [us'|].
      * split.
        -- intros H. injection H as <-. constructor; [exact Hu|].
           now apply IH.
        -- intros H. inversion H as [|? u' ? us'' Hu' Hrest]; subst.
           apply IH in Hrest. congruence.
      * split; [discriminate|]. intros H.
        inversion H as [|? u' ? us'' Hu' Hrest]; subst.
        now apply IH in Hrest.
    + split; [discriminate|]. intros H.
      inversion H as [|? u' ? us'' Hu' Hrest]; subst. congruence.
Qed.

Lemma parse_all_app (w : World) (l1 l2 : list jsstring) :
  parse_all w (l1 ++ l2)
  = match parse_all w l1, parse_all w l2 with
    | Some us1, Some us2 => Some (us1 ++ us2)
    | _, _ => None
    end.
Proof.
  induction l1 as [|line l1 IH]; simpl.
  - now destruct (parse_all w l2).
  - destruct (newURL w line); [|reflexivity]. rewrite IH.
    destruct (parse_all w l1); [|reflexivity].
    now destruct (parse_all w l2).
Qed.

Lemma parse_all_none (w : World) (l : list jsstring) :
  parse_all w l = None <-> exists line, In line l /\ newURL w line = None.
Proof.
  induction l as [|line l IH]; simpl.
  - split; [discriminate | intros (? & [] & _)].
  - destruct (newURL w line) as [u|] eqn:Hu.
    + destruct (parse_all w l) as [us|].
      * split; [discriminate|]. intros (x & [<-|Hx] & Hn); [congruence|].
        assert (Some us = None) by (apply IH; eauto). discriminate.
      * split; [|reflexivity]. intros _.
        destruct (proj1 IH eq_refl) as (x & Hx & Hn). eauto.
    + split; [|reflexivity]. intros _. eauto.
Qed.

(** [--file] overrides [--url], and [--url] implies [--pause]: with a
    file given, the URL option and everything but the file and the pause
    option are not looked at; without one, a run that starts visits the
    one URL given and pauses on it. *)
Theorem file_overrides_url (w : World) (o : Options) :
  (forall o',
     given (opt_file o) <> None ->
     opt_file o' = opt_file o -> opt_pause o' = opt_pause o ->
     seeds w o' = seeds w o)
  /\ (forall us pause,
        given (opt_file o) = None -> seeds w o = inr (us, pause) ->
        pause = true
        /\ exists s u,
             given (opt_url o) = Some s /\ newURL w s = Some u /\ us = [u]).
Proof.
  split.
  - intros o' Hf Hsame Hp. unfold seeds. rewrite Hsame, Hp.
    now destruct (given (opt_file o)).
  - intros us pause Hf. unfold seeds. rewrite Hf.
    destruct (given (opt_url o)) as [s|]; [|discriminate].
    destruct (newURL w s) as [u|] eqn:Hu; [|discriminate].
    intros H. injection H as <- <-. split; [reflexivity|]. eauto.
Qed.

(** The URLs of a seed file: one per line that is not empty, in order,
    all of them or none.  The run is given up exactly when some such line
    does not parse; a file without any such line gives a run that visits
    nothing; and the lines of a file are those of its parts. *)
Theorem seeds_of_file (w : World) (o : Options) (file data : jsstring) :
  given (opt_file o) = Some file -> readFile w file = Some data ->
  (forall us pause,
     seeds w o = inr (us, pause)
     <-> pause = opt_pause o
         /\ Forall2 (fun line u => newURL w line = Some u)
              (pieces newline data) us)
  /\ (seeds w o = inl InvalidURLInFile
      <-> exists line,
            In line (pieces newline data) /\ newURL w line = None)
  /\ (forall a b, data = a ++ newline :: b ->
        parse_all w (pieces newline data)
        = match parse_all w (pieces newline a),
                parse_all w (pieces newline b) with
          | Some us1, Some us2 => Some (us1 ++ us2)
          | _, _ => None
          end).
Proof.
  intros Hf Hr. unfold seeds. rewrite Hf, Hr. split; [|split].
  - intros us pause.
    destruct (parse_all w (pieces newline data)) as [us'|] eqn:Hp.
    + apply parse_all_Forall2 in Hp. split.
      * intros H. injection H as <- <-. auto.
      * intros [-> H]. f_equal. f_equal.
        apply parse_all_Forall2 in H, Hp. congruence.
    + split; [discriminate|]. intros [_ H].
      apply parse_all_Forall2 in H. congruence.
  - rewrite <- parse_all_none.
    destruct (parse_all w (pieces newline data)); split; congruence.
  - intros a b ->. now rewrite pieces_app, parse_all_app.
Qed.

Lemma trimStart_blank (s : jsstring) :
  Forall (fun c => is_space c = true) s -> trimStart s = [].
Proof.
  induction 1 as [|c s Hc _ IH]; simpl; [reflexivity|]. now rewrite Hc.
Qed.

Lemma trim_blank (s : jsstring) :
  Forall (fun c => is_space c = true) s -> trim s = [].
Proof. intros H. unfold trim. now rewrite (trimStart_blank s H). Qed.

Lemma skipsBody_false (exts : list jsstring) (ext : jsstring) :
  skipsBody exts ext = false <-> ext = [] \/ In ext exts.
Proof.
  unfold skipsBody.
  destruct (bool_decide_reflect (ext = [])) as [He|He]; simpl;
    [split; auto|].
  rewrite negb_false_iff, existsb_exists. split.
  - intros (e & He' & Heq). apply streq_spec in Heq. subst e. now right.
  - intros [H|H]; [contradiction|]. exists ext. split; [exact H|].
    now apply streq_spec.
Qed.

Lemma extension_names_members (w : World) (o : Options) (e : jsstring) :
  In e (extension_names w o)
  <-> match pieces comma (or_empty (opt_extensions o)) with
      | [] => In e (EXTENSIONS w)
      | ps => exists p, In p ps /\ e = toLowerCase w (trim p)
      end.
Proof.
  unfold extension_names. cbv zeta.
  rewrite (proj2 (uniq_facts _) e).
  destruct (pieces comma (or_empty (opt_extensions o))) as [|p ps];
    [reflexivity|].
  cbn [map]. change (In e (map (fun ext => toLowerCase w (trim ext))
                             (p :: ps))
                     <-> exists p0, In p0 (p :: ps)
                                    /\ e = toLowerCase w (trim p0)).
  rewrite in_map_iff. split; intros (x & H1 & H2); exists x; auto.
Qed.

(** What [--extensions] means to the handler: the body of a response is
    read when the extension of its path is empty or is a dot followed by
    one of the names, the names being the pieces of the option, trimmed and
    in lower case, or those of [lists/extensions.txt] when the option has
    no piece.  A piece of white space counts as a name, the empty one. *)
Theorem extensions_option (w : World) (o : Options) :
  (forall ext,
     skipsBody (dotted (extension_names w o)) ext = false
     <-> ext = [] \/ exists e, In e (extension_names w o)
                               /\ ext = js "." ++ e)
  /\ (forall e,
        In e (extension_names w o)
        <-> match pieces comma (or_empty (opt_extensions o)) with
            | [] => In e (EXTENSIONS w)
            | ps => exists p, In p ps /\ e = toLowerCase w (trim p)
            end)
  /\ (forall p,
        In p (pieces comma (or_empty (opt_extensions o))) ->
        Forall (fun c => is_space c = true) p ->
        In (js "." ++ toLowerCase w []) (dotted (extension_names w o))).
Proof.
  split; [|split].
  - intros ext. rewrite skipsBody_false. unfold dotted. rewrite in_map_iff.
    split; (intros [H|(e & H1 & H2)]; [now left | right; exists e; auto]).
  - apply extension_names_members.
  - intros p Hp Hblank. unfold dotted. apply in_map.
    apply extension_names_members.
    destruct (pieces comma (or_empty (opt_extensions o))) as [|p0 ps];
      [destruct Hp|].
    exists p. split; [exact Hp|]. now rewrite (trim_blank p Hblank).
Qed.

Lemma join_two_length (sep x y : jsstring) (l : list jsstring) :
  length x + length sep + length y <= length (join sep (x :: y :: l)).
Proof.
  cbn [join]. rewrite !length_app.
  destruct l; cbn [join]; rewrite ?length_app; lia.
Qed.

(** The list of extensions in the starting message: the first three names
    joined, and [, etc.] after them whenever that text is longer than three
    code units, which is so as soon as two names that are not empty are
    shown, also when no name is left out; one name alone gets it exactly
    when it is longer than three code units. *)
Theorem shown_etc :
  (forall (x y : jsstring) (l : list jsstring), x <> [] -> y <> [] ->
     shown (x :: y :: l)
     = join (js ", ") (take 3 (x :: y :: l)) ++ js ", etc.")
  /\ (forall x : jsstring,
        shown [x] = x ++ js ", etc." <-> 3 < length x).
Proof.
  split.
  - intros x y l Hx Hy. unfold shown. cbv zeta.
    assert (Hlen : 3 < length (join (js ", ") (take 3 (x :: y :: l)))).
    { change (take 3 (x :: y :: l)) with (x :: y :: take 1 l).
      pose proof (join_two_length (js ", ") x y (take 1 l)) as H.
      change (length (js ", ")) with 2 in H.
      destruct x; [congruence|]. destruct y; [congruence|].
      simpl length in *. lia. }
    apply Nat.ltb_lt in Hlen. now rewrite Hlen.
  - intros x. unfold shown. cbv zeta. cbn [take join].
    destruct (Nat.ltb_spec 3 (length x)) as [H|H].
    + split; auto.
    + split; [|lia]. intros Heq.
      apply (f_equal (@length N)) in Heq. rewrite length_app in Heq.
      simpl in Heq. lia.
Qed.

Lemma dotted_NoDup (l : list jsstring) : NoDup l -> NoDup (dotted l).
Proof.
  unfold dotted. induction 1 as [|x l Hx Hl IH]; simpl; constructor; auto.
  rewrite list_elem_of_In, in_map_iff. intros (y & Hy & Hin).
  injection Hy as ->. now apply list_elem_of_In in Hin.
Qed.

(** A run only starts with URLs that all parsed, an output path that is a
    directory, root domains that are at least one, without duplicate,
    none empty and none with a comma, and extensions without duplicate that
    all start with a dot. *)
Theorem plan_facts (w : World) (o : Options) (p : Plan) :
  prepare w o = inr p ->
  seeds w o = inr (plan_urls p, plan_pause p)
  /\ isDirectory w (opt_output o) = Some true
  /\ plan_domains p = root_domains o
  /\ plan_domains p <> []
  /\ NoDup (plan_domains p)
  /\ Forall (fun d => d <> [] /\ ~ In comma d) (plan_domains p)
  /\ NoDup (plan_extensions p)
  /\ Forall (fun e => exists name, e = js "." ++ name) (plan_extensions p).
Proof.
  unfold prepare. destruct (seeds w o) as [e|[us pause]]; [discriminate|].
  destruct (isDirectory w (opt_output o)) as [[|]|]; try discriminate.
  destruct (root_domains o) as [|d ds] eqn:Hd; [discriminate|].
  intros H. injection H as <-. cbn.
  destruct (root_domains_facts_aux o) as (Hnd & Hall & _).
  rewrite Hd in Hnd, Hall.
  repeat split; auto; try discriminate.
  - apply dotted_NoDup. unfold extension_names.
    apply (uniq_facts _).
  - unfold dotted. apply List.Forall_forall. intros e He.
    apply in_map_iff in He as (name & <- & _). eauto.
Qed.

(** ** The order of the turns *)

Section Turns.

Variable cfg : Config.

Lemma turn_streams (t : turn) (s : gset jsstring) :
  url_findings (emitted (take_turn cfg t) s) = turn_urls cfg t
  /\ path_findings (emitted (take_turn cfg t) s) = turn_paths t
  /\ final (take_turn cfg t) s
     = s ∪ list_to_set (map hostname (turn_urls cfg t)).
Proof.
  destruct t as [resp|u [body|]]; cbn [turn_urls turn_paths].
  - assert (Hf : final (take_turn cfg (Arrives resp)) s
                 = final (on_response_head cfg resp) s)
      by (cbn [take_turn]; now rewrite final_bind).
    assert (He : emitted (take_turn cfg (Arrives resp)) s
                 = emitted (on_response_head cfg resp) s).
    { cbn [take_turn]. rewrite emitted_bind. unfold emitted at 3.
      simpl. now rewrite app_nil_r. }
    rewrite Hf, He. unfold emitted, final.
    rewrite on_response_head_run.
    destruct (parseURL cfg (url resp)) as [u|]; cbn [fst snd].
    + rewrite !url_findings_app, !path_findings_app.
      destruct (handleURL_streams cfg u s) as (Hu1 & _ & Hp1 & Hf1).
      destruct (scanURLs_streams cfg (headers resp)
                  (final (handleURL cfg u) s)) as (Hu2 & _ & Hp2 & Hf2).
      rewrite Hu1, Hp1, Hu2, Hp2, Hf2, Hf1.
      change (u :: parsed cfg (extractUrls (headers resp)))
        with ([u] ++ parsed cfg (extractUrls (headers resp))).
      unfold hosts. rewrite filter_app, map_app, list_to_set_app_L.
      repeat split. set_solver.
    + simpl. repeat split. set_solver.
  - cbn [take_turn]. unfold emitted, final.
    rewrite on_response_tail_run. cbn [fst snd].
    rewrite url_findings_app, path_findings_app.
    destruct (scanURLs_streams cfg body s) as (Hu & _ & Hp & Hf).
    destruct (path_findings_map u (extractPaths body)) as (Hq1 & Hq2 & _).
    rewrite Hu, Hp, Hq1, Hq2, Hf, app_nil_r. now repeat split.
  - unfold emitted, final. simpl. repeat split. set_solver.
Qed.

Lemma turns_streams (ts : list turn) (s : gset jsstring) :
  url_findings (emitted (forEach ts (take_turn cfg)) s)
  = ts ≫= turn_urls cfg
  /\ path_findings (emitted (forEach ts (take_turn cfg)) s)
     = ts ≫= turn_paths
  /\ final (forEach ts (take_turn cfg)) s
     = s ∪ list_to_set (map hostname (ts ≫= turn_urls cfg)).
Proof.
  revert s. induction ts as [|t ts IH]; intros s.
  - unfold emitted, final. simpl. repeat split. set_solver.
  - rewrite forEach_cons, emitted_bind, final_bind.
    rewrite url_findings_app, path_findings_app.
    destruct (turn_streams t s) as (Hu & Hp & Hf).
    destruct (IH (final (take_turn cfg t) s)) as (Hu' & Hp' & Hf').
    rewrite Hu, Hp, Hu', Hp', Hf', Hf. cbn [mbind list_bind].
    rewrite map_app, list_to_set_app_L. repeat split. set_solver.
Qed.

(** The order in which the responses arrive and their bodies settle
    changes neither the set of host names in [uniqueDomains] and on the
    subdomain stream, nor, up to their order, the URL findings and the path
    findings. *)
Theorem order_of_turns (ts ts' : list turn) :
  ts ≡ₚ ts' ->
  (run cfg ts).1 = (run cfg ts').1
  /\ (forall h, In (SubdomainFinding h) (run cfg ts).2
               <-> In (SubdomainFinding h) (run cfg ts').2)
  /\ url_findings (run cfg ts).2 ≡ₚ url_findings (run cfg ts').2
  /\ path_findings (run cfg ts).2 ≡ₚ path_findings (run cfg ts').2.
Proof.
  intros Hperm.
  assert (Hstate : (run cfg ts).1 = (run cfg ts').1).
  { unfold run. cbn [fst].
    rewrite (proj2 (proj2 (turns_streams ts ∅))),
      (proj2 (proj2 (turns_streams ts' ∅))).
    apply set_eq. intros h.
    rewrite !elem_of_union, !elem_of_list_to_set, !list_elem_of_In,
      !in_map_iff.
    split; (intros [H|(u & Hu & Hin)]; [now left | right; exists u]);
      (split; [exact Hu|]); apply list_elem_of_In;
      apply list_elem_of_In in Hin;
      [now rewrite <- Hperm | now rewrite Hperm]. }
  split; [exact Hstate|]. split; [|split].
  - intros h.
    rewrite <- (proj1 (run_dedup cfg ts) h), <- (proj1 (run_dedup cfg ts') h).
    now rewrite Hstate.
  - unfold run. cbn [snd].
    rewrite (proj1 (turns_streams ts ∅)), (proj1 (turns_streams ts' ∅)).
    now rewrite Hperm.
  - unfold run. cbn [snd].
    rewrite (proj1 (proj2 (turns_streams ts ∅))),
      (proj1 (proj2 (turns_streams ts' ∅))).
    now rewrite Hperm.
Qed.

End Turns.

(** ** From the options to the streams *)

(** Every host name that a run writes to the subdomain stream is one of
    the pieces of [--domains], or ends with a dot followed by one, and does
    not start with the wildcard marker. *)
Theorem subdomains_under_given_domains (w : World) (o : Options) (p : Plan)
    (ts : list turn) (h : jsstring) :
  prepare w o = inr p ->
  In (SubdomainFinding h) (run (config_of w p) ts).2 ->
  startsWith h (js "*.") = false
  /\ exists d,
       In d (pieces comma (or_empty (opt_domains o)))
       /\ (h = d \/ exists k, h = k ++ js "." ++ d).
Proof.
  intros Hp Hh.
  assert (Hd : domains (config_of w p) = root_domains o).
  { unfold prepare in Hp. destruct (seeds w o) as [e|[us pause]];
      [discriminate|].
    destruct (isDirectory w (opt_output o)) as [[|]|]; try discriminate.
    destruct (root_domains o) as [|d ds]; [discriminate|].
    now injection Hp as <-. }
  apply (run_dedup (config_of w p) ts) in Hh.
  unfold run in Hh. cbn [fst] in Hh.
  apply (adds_in_scope_forEach (config_of w p) (take_turn (config_of w p))
           ts (adds_in_scope_turn (config_of w p))) in Hh as [Hh|Hh];
    [now apply not_elem_of_empty in Hh|].
  rewrite Hd in Hh. apply inScope_spec in Hh as (Hw & d & Hin & Hm).
  split.
  - apply not_true_is_false. intros Hs. apply Hw.
    now apply startsWith_spec.
  - exists d. split; [|exact Hm].
    now apply (proj2 (uniq_facts _) d).
Qed.

(** The two expression objects are shared by all the scans of a run.
    Every scan ends within one call of [exec] for each code unit of its
    text and one more, and leaves [lastIndex] at 0, so that each scan of a
    run starts at the beginning of its text. *)
Theorem shared_expressions_rewind (texts : list jsstring) :
  scans regex_url texts 0 = Some (map (matchAll regex_url) texts, 0)
  /\ scans regex_path texts 0 = Some (map (matchAll regex_path) texts, 0).
Proof. split; [apply scans_url | apply scans_path]. Qed.

(** ** The further properties on concrete inputs *)

Example example_prepare : prepare example_world example_options
                          = inr example_plan.
Proof. vm_compute. reflexivity. Qed.

Lemma uniqueDomains_grows_in_scope_witness :
  inScope (domains example_cfg) (js "app.example.com") = true.
Proof.
  apply (proj2 (uniqueDomains_grows_in_scope example_cfg) [Arrives page]).
  apply (bool_decide_eq_true_1 _). vm_compute. reflexivity.
Defined.

Lemma url_found_where_it_stands_witness :
  match_at regex_url (js "see " ++ js "http://a" ++ js " ")
    (length (js "see "))
  = Some (Result (length (js "see "))
            (length (js "see ") + length (js "http://a"))
            [Some (js "http://a"); Some (js "http://a")]).
Proof.
  apply url_found_where_it_stands.
  exists (js "http://"), (js "a").
  split; [reflexivity|]. split; [now left|]. split; [discriminate|].
  split; [repeat constructor|].
  split; [left; exists 32%N, []; split; reflexivity|].
  intros b1 b2 H Hb1 Hb2. destruct b1 as [|x b1]; [congruence|].
  injection H as _ H. symmetry in H. apply app_eq_nil in H as [_ ->].
  congruence.
Defined.

Lemma path_found_where_it_stands_witness :
  match_at regex_path (js "x=" ++ dquote :: js "/a/b" ++ dquote :: js ";")
    (length (js "x="))
  = Some (Result (length (js "x="))
            (length (js "x=") + length (dquote :: js "/a/b" ++ [dquote]))
            [Some (dquote :: js "/a/b" ++ [dquote]); Some [dquote];
             Some (js "/a/b")]).
Proof.
  apply path_found_where_it_stands; [now left|].
  exists (cu "a"), (js "/b").
  split; [reflexivity|]. split; [reflexivity|]. repeat constructor.
Defined.

Lemma scan_in_order_witness :
  index (Result 15 29 [Some (js "http://b.com/y"); Some (js "http://b.com/y")])
  < endIndex (Result 15 29 [Some (js "http://b.com/y");
                            Some (js "http://b.com/y")])
  <= length (quoted two_urls).
Proof.
  apply (proj1 (proj2 (proj2 (scan_in_order (quoted two_urls))))).
  vm_compute. right. left. reflexivity.
Defined.

Lemma scan_covers_witness :
  exists m, In m (matchAll regex_url (quoted two_urls))
            /\ index m <= 1 < endIndex m.
Proof.
  apply (proj1 (scan_covers (quoted two_urls) 1)).
  vm_compute. discriminate.
Defined.

Lemma quoted_path_reported_witness :
  exists m,
    In m (matchAll regex_path
            (js "x=" ++ dquote :: js "/a/b" ++ dquote :: js ";"))
    /\ index m <= length (js "x=") < endIndex m
    /\ (index m = length (js "x=") ->
          endIndex m
          = length (js "x=") + length (dquote :: js "/a/b" ++ [dquote])
          /\ group 2 m = js "/a/b")
    /\ (index m < length (js "x=") ->
          endIndex m = S (length (js "x="))
          /\ group 1 m = [dquote]
          /\ forall m',
               In m' (matchAll regex_path
                        (js "x=" ++ dquote :: js "/a/b" ++ dquote :: js ";")) ->
               index m' <> length (js "x=")).
Proof.
  apply quoted_path_reported; [now left|].
  exists (cu "a"), (js "/b").
  split; [reflexivity|]. split; [reflexivity|]. repeat constructor.
Defined.

(** Two literals that share a quote: the quote in the middle closes the
    first, so the second is left out. *)
Example shared_quote :
  matchAll regex_path (dquote :: js "/a" ++ dquote :: js "/b" ++ [dquote])
  = [Result 0 4 [Some (quoted (js "/a")); Some [dquote]; Some (js "/a")]].
Proof. vm_compute. reflexivity. Qed.

Lemma url_reported_witness :
  exists m,
    In m (matchAll regex_url (js "see " ++ js "http://a" ++ js " "))
    /\ index m <= length (js "see ") < endIndex m
    /\ (index m = length (js "see ") -> group 1 m = js "http://a").
Proof.
  apply url_reported.
  exists (js "http://"), (js "a").
  split; [reflexivity|]. split; [now left|]. split; [discriminate|].
  split; [repeat constructor|].
  split; [left; exists 32%N, []; split; reflexivity|].
  intros b1 b2 H Hb1 Hb2. destruct b1 as [|x b1]; [congruence|].
  injection H as _ H. symmetry in H. apply app_eq_nil in H as [_ ->].
  congruence.
Defined.

Lemma inScope_set_of_domains_witness :
  inScope [js "example.com"; js "example.org"; js "example.com"]
    (js "app.example.org")
  = inScope [js "example.org"; js "example.com"] (js "app.example.org").
Proof.
  apply (proj1 (inScope_set_of_domains
                  [js "example.com"; js "example.org"; js "example.com"]
                  [js "example.org"; js "example.com"]
                  (js "app.example.org"))).
  intros d. simpl. tauto.
Defined.

Lemma inScope_subdomain_witness :
  inScope [js "example.com"] (js "api" ++ js "." ++ js "app.example.com")
  = true.
Proof.
  apply inScope_subdomain; vm_compute; reflexivity.
Defined.

Lemma inScope_foreign_unit_witness :
  inScope [js " example.org"; js "example.com"] (js "app.example.org")
  = inScope [js "example.com"] (js "app.example.org").
Proof.
  apply (inScope_foreign_unit [js "example.com"] (js " example.org")
           (js "app.example.org") 32%N).
  - vm_compute. left. reflexivity.
  - vm_compute. intros H.
    repeat (destruct H as [H|H]; [discriminate|]). exact H.
Defined.

Lemma root_domains_facts_witness :
  In (js "example.org") (root_domains example_options)
  <-> In (js "example.org") (pieces comma (js "example.com"))
      \/ In (js "example.org")
           (pieces comma (js ",example.org,example.com")).
Proof.
  apply (proj2 (proj2 (proj2 (root_domains_facts example_options)))
           (js "example.com") (js ",example.org,example.com")).
  reflexivity.
Defined.

Lemma file_overrides_url_witness :
  seeds example_world
    (mkOptions (Some (js "example.com")) None (Some (js "urls.txt"))
       (js "out") false (Some (js "not a url")) None)
  = seeds example_world example_options.
Proof.
  apply (proj1 (file_overrides_url example_world example_options)).
  - vm_compute. discriminate.
  - reflexivity.
  - reflexivity.
Defined.

Lemma seeds_of_file_witness :
  seeds example_world example_options = inr ([app_page; app_logo], false).
Proof.
  apply (proj1 (seeds_of_file example_world example_options
                  (js "urls.txt") seed_text eq_refl eq_refl)).
  split; [reflexivity|]. vm_compute. repeat constructor.
Defined.

Lemma extensions_option_witness :
  In (js "." ++ toLowerCase example_world [])
    (dotted (extension_names example_world
               (mkOptions None (Some (js "js, ")) None (js "out") false
                  None None))).
Proof.
  apply (proj2 (proj2 (extensions_option example_world
                         (mkOptions None (Some (js "js, ")) None (js "out")
                            false None None))) (js " ")).
  - vm_compute. right. left. reflexivity.
  - repeat constructor.
Defined.

Lemma shown_etc_witness :
  shown [js "js"; js "css"]
  = join (js ", ") (take 3 [js "js"; js "css"]) ++ js ", etc.".
Proof. apply (proj1 shown_etc); discriminate. Defined.

Lemma plan_facts_witness :
  plan_domains example_plan <> [] /\ NoDup (plan_extensions example_plan).
Proof.
  destruct (plan_facts example_world example_options example_plan)
    as (_ & _ & _ & H1 & _ & _ & H2 & _).
  - vm_compute. reflexivity.
  - split; assumption.
Defined.

Lemma subdomains_under_given_domains_witness :
  startsWith (js "cdn.example.com") (js "*.") = false
  /\ exists d,
       In d (pieces comma (or_empty (opt_domains example_options)))
       /\ (js "cdn.example.com" = d
           \/ exists k, js "cdn.example.com" = k ++ js "." ++ d).
Proof.
  apply (subdomains_under_given_domains example_world example_options
           example_plan [Arrives page; Settles app_page (text page)]).
  - vm_compute. reflexivity.
  - vm_compute. do 2 right. left. reflexivity.
Defined.

Lemma body_asked_iff_witness :
  value (on_response_head example_cfg page) ∅ = Some app_page
  <-> extname example_cfg (pathname app_page) = []
      \/ In (extname example_cfg (pathname app_page))
           (extensions example_cfg).
Proof.
  apply (body_asked_iff example_cfg page ∅ app_page).
  vm_compute. reflexivity.
Defined.

Lemma order_of_turns_witness :
  (run example_cfg [Arrives image; Arrives page]).1
  = (run example_cfg [Arrives page; Arrives image]).1.
Proof.
  destruct (order_of_turns example_cfg [Arrives image; Arrives page]
              [Arrives page; Arrives image]) as [H _].
  - apply perm_swap.
  - exact H.
Defined.
